(** * LLM-ChatWork-Reader/Writer: the read pipeline, the body composer and
    the credential chain, embedded in Rocq.

    The source is [src/chatwork-client.mjs], which holds the client class and
    the command-line module.  The functions of the command-line module are
    translated one by one, keeping their names; the JavaScript built-ins they
    call ([||], [Number], [String.prototype.trim], [Array.prototype.sort],
    [Date.parse], ...) are modelled in the module [JS] below, as Node runs
    them. *)

From Stdlib Require Import ZArith QArith Qround Lia Lqa Ascii String List.
From Stdlib Require Import Sorted Permutation.
From stdpp Require Import base option gmap strings list sorting.

Local Open Scope Z_scope.

(** ** Values of the option bag

    [parseArgs] stores, under each [--key], either the string that follows it
    (or that follows [=]) or the boolean [true]; a key that was not given reads
    back as [undefined].  A lookup therefore yields an [option optval], with
    [None] standing for [undefined]. *)

Inductive optval : Type :=
| OTrue
| OStr (s : string).

Abbreviation jsval := (option optval).

(** Exceptions: [throw new Error(msg)], and the [RangeError] that
    [Date.prototype.toISOString] raises on an invalid date. *)
Inductive exn : Type :=
| Error (message : string)
| RangeError (message : string).

Inductive result (A : Type) : Type :=
| Ok (a : A)
| Throw (e : exn).
Arguments Ok {A} a.
Arguments Throw {A} e.

#[global] Instance result_ret : MRet result := λ A a, Ok a.
#[global] Instance result_bind : MBind result :=
  λ A B f m, match m with Ok a => f a | Throw e => Throw e end.
#[global] Instance result_fmap : FMap result :=
  λ A B f m, match m with Ok a => Ok (f a) | Throw e => Throw e end.

(** JavaScript numbers.  The finite ones are carried as rationals: every
    finite double is one, and the functions below only compare, negate,
    clamp and truncate them.  The sign of zero plays no role here. *)
Inductive number : Type :=
| NaN
| PosInf
| NegInf
| Fin (q : Q).

(** What the host leaves open: [Number(s)] on a string that is neither empty
    nor a plain run of decimal digits, and [Date.parse(s)] on a string that is
    not a valid calendar date [YYYY-MM-DD].  [None] stands for [NaN]; a time
    value is a whole number of milliseconds. *)
Class Engine : Type := {
  StringToNumber_rest : string → number;
  Date_parse_rest : string → option Z;
}.

Module JS.

(** *** Truthiness, [||], [String] *)

(** [ToBoolean]: [undefined] and the empty string are falsy. *)
Definition truthy (v : jsval) : bool :=
  match v with
  | None => false
  | Some OTrue => true
  | Some (OStr s) => negb (String.eqb s "")
  end.

(** [a || b] *)
Definition or (a b : jsval) : jsval := if truthy a then a else b.

(** [String(v)] *)
Definition String_ (v : jsval) : string :=
  match v with
  | None => "undefined"
  | Some OTrue => "true"
  | Some (OStr s) => s
  end.

(** A property of an object whose values are all strings
    ([process.env], the map read from the env file). *)
Definition prop (m : gmap string string) (k : string) : jsval :=
  OStr <$> m !! k.

(** [s || d] and [n || d] on a value known to be a string, resp. a number. *)
Definition str_or (s d : string) : string :=
  if String.eqb s "" then d else s.
Definition num_or (n d : Z) : Z :=
  if n =? 0 then d else n.

(** *** Strings

    A [string] is read as a sequence of code units in [0, 255]. *)

Definition code (c : ascii) : Z := Z.of_N (N_of_ascii c).

(** [\d] *)
Definition is_digit (c : ascii) : bool := (48 <=? code c) && (code c <=? 57).

Fixpoint all_digits (s : string) : bool :=
  match s with
  | EmptyString => true
  | String c s' => is_digit c && all_digits s'
  end.

(** [/^\d+$/.test(s)] *)
Definition digits_test (s : string) : bool :=
  negb (String.eqb s "") && all_digits s.

Fixpoint digits_value_from (acc : Z) (s : string) : Z :=
  match s with
  | EmptyString => acc
  | String c s' => digits_value_from (10 * acc + (code c - 48)) s'
  end.

(** The mathematical value of a run of decimal digits. *)
Definition digits_value (s : string) : Z := digits_value_from 0 s.

(** [s.includes(needle)] *)
Fixpoint includes (s needle : string) : bool :=
  String.prefix needle s ||
  match s with
  | EmptyString => false
  | String _ s' => includes s' needle
  end.

(** [s.split(sep)] for a one-character separator *)
Fixpoint split (sep : ascii) (s : string) : list string :=
  match s with
  | EmptyString => [EmptyString]
  | String c s' =>
      if Ascii.eqb c sep then EmptyString :: split sep s'
      else match split sep s' with
           | [] => [String c EmptyString]
           | piece :: pieces => String c piece :: pieces
           end
  end.

(** [lines.join(sep)] *)
Fixpoint join (sep : string) (l : list string) : string :=
  match l with
  | [] => EmptyString
  | [x] => x
  | x :: l' => x +:+ sep +:+ join sep l'
  end.

(** White space and line terminators, as far as they are below 256:
    TAB, LF, VT, FF, CR, SP, NBSP. *)
Definition is_ws (c : ascii) : bool :=
  let n := code c in
  ((9 <=? n) && (n <=? 13)) || (n =? 32) || (n =? 160).

Fixpoint trim_start (s : string) : string :=
  match s with
  | EmptyString => EmptyString
  | String c s' => if is_ws c then trim_start s' else s
  end.

Fixpoint trim_end (s : string) : string :=
  match s with
  | EmptyString => EmptyString
  | String c s' =>
      match trim_end s' with
      | EmptyString => if is_ws c then EmptyString else String c EmptyString
      | t => String c t
      end
  end.

(** [s.trim()] *)
Definition trim (s : string) : string := trim_end (trim_start s).

(** [s.toLowerCase()] on code units below 256 *)
Definition lower (c : ascii) : ascii :=
  let n := code c in
  if ((65 <=? n) && (n <=? 90)) ||
     ((192 <=? n) && (n <=? 222) && negb (n =? 215))
  then ascii_of_N (Z.to_N (n + 32)) else c.

Fixpoint toLowerCase (s : string) : string :=
  match s with
  | EmptyString => EmptyString
  | String c s' => String (lower c) (toLowerCase s')
  end.

(** *** Regular expressions, as far as [stripCommonChatworkTags] uses them

    A matcher is tried at the start of a string and answers with what is left
    after the match. *)

Definition matcher : Type := string → option string.

Fixpoint lit (p : string) : matcher := λ s,
  match p, s with
  | EmptyString, _ => Some s
  | String a p', String b s' => if Ascii.eqb a b then lit p' s' else None
  | String _ _, EmptyString => None
  end.

(** [\d*], greedy *)
Fixpoint skip_digits (s : string) : string :=
  match s with
  | String c s' => if is_digit c then skip_digits s' else s
  | EmptyString => EmptyString
  end.

(** [\d+]: what follows it in the patterns below is never a digit, so the
    longest run is the only one that can lead to a match. *)
Definition digits1 : matcher := λ s,
  match s with
  | String c s' => if is_digit c then Some (skip_digits s') else None
  | EmptyString => None
  end.

Definition seq (m1 m2 : matcher) : matcher := λ s, m1 s ≫= m2.

Fixpoint alt (ms : list matcher) : matcher := λ s,
  match ms with
  | [] => None
  | m :: ms' => match m s with Some r => Some r | None => alt ms' s end
  end.

(** [s.replace(/re/g, '')]: scan from the left; where the pattern matches,
    drop the match and go on behind it.  [skip] counts the characters of the
    current match that are still to be dropped. *)
Fixpoint remove_from (m : matcher) (skip : nat) (s : string) : string :=
  match s with
  | EmptyString => EmptyString
  | String c s' =>
      match skip with
      | S k => remove_from m k s'
      | O =>
          match m s with
          | Some rest =>
              remove_from m (String.length s' - String.length rest) s'
          | None => String c (remove_from m O s')
          end
      end
  end.

Definition remove_all (m : matcher) (s : string) : string :=
  remove_from m O s.

(** *** Numbers *)

Definition of_Z (z : Z) : number := Fin (inject_Z z).

(** [Number.isFinite] *)
Definition isFinite (n : number) : bool :=
  match n with Fin _ => true | _ => false end.

(** [a <= b]; any comparison with [NaN] is false. *)
Definition le (a b : number) : bool :=
  match a, b with
  | NaN, _ | _, NaN => false
  | NegInf, _ => true
  | _, PosInf => true
  | PosInf, _ => false
  | _, NegInf => false
  | Fin x, Fin y => Qle_bool x y
  end.

(** [a >= b] *)
Definition ge (a b : number) : bool := le b a.

(** [Math.min(a, b)], [Math.max(a, b)] *)
Definition Math_min (a b : number) : number :=
  match a, b with
  | NaN, _ | _, NaN => NaN
  | _, _ => if le a b then a else b
  end.
Definition Math_max (a b : number) : number :=
  match a, b with
  | NaN, _ | _, NaN => NaN
  | _, _ => if le a b then b else a
  end.

(** [-a] *)
Definition neg (a : number) : number :=
  match a with
  | NaN => NaN
  | PosInf => NegInf
  | NegInf => PosInf
  | Fin q => Fin (- q)
  end.

(** Rounding towards zero. *)
Definition Qtrunc (q : Q) : Z :=
  if Qle_bool 0 q then Qfloor q else Qceiling q.

(** The double nearest to a natural number, ties to the even significand;
    from [2^1024 - 2^970] on it is [Infinity]. *)
Definition round_to_double (n : Z) : number :=
  if n <? 2 ^ 53 then of_Z n
  else
    let e := Z.log2 n - 52 in
    let q := n / 2 ^ e in
    let r := n mod 2 ^ e in
    let half := 2 ^ (e - 1) in
    let q' := if (half <? r) || ((r =? half) && Z.odd q) then q + 1 else q in
    let v := q' * 2 ^ e in
    if v <? 2 ^ 1024 then of_Z v else PosInf.

(** [Number(s)] for a string [s] *)
Definition StringToNumber `{engine : Engine} (s : string) : number :=
  if String.eqb s "" then of_Z 0
  else if digits_test s then round_to_double (digits_value s)
  else StringToNumber_rest s.

(** [Number(v)] *)
Definition Number `{engine : Engine} (v : jsval) : number :=
  match v with
  | None => NaN
  | Some OTrue => of_Z 1
  | Some (OStr s) => StringToNumber s
  end.

(** *** Arrays *)

(** [SortCompare] orders [x] before [y] when the comparator's answer is not
    positive.  [Array.prototype.sort] is stable, which for a comparator that
    is a difference of keys fixes its result; insertion from the right
    computes it.  The comparator answers in [Z]: a difference of two doubles
    has the sign of the exact difference. *)
Fixpoint insert_by {A} (cmp : A → A → Z) (x : A) (l : list A) : list A :=
  match l with
  | [] => [x]
  | y :: l' => if cmp x y <=? 0 then x :: l else y :: insert_by cmp x l'
  end.

Definition sort {A} (cmp : A → A → Z) (l : list A) : list A :=
  foldr (insert_by cmp) [] l.

(** [ToIntegerOrInfinity] followed by the clamping that [slice] applies to
    its start index; the answer is the index of the first element kept. *)
Definition slice_start (start : number) (len : Z) : Z :=
  match start with
  | NaN => 0
  | NegInf => 0
  | PosInf => len
  | Fin q =>
      let rel := Qtrunc q in
      if rel <? 0 then Z.max (len + rel) 0 else Z.min rel len
  end.

(** [l.slice(start)] *)
Definition slice {A} (start : number) (l : list A) : list A :=
  drop (Z.to_nat (slice_start start (Z.of_nat (length l)))) l.

(** *** Dates: the day arithmetic of ECMAScript's Date objects *)

Definition msPerDay : Z := 86400000.

(** The largest time value, in either direction, that a Date can hold. *)
Definition maxTime : Z := 8640000000000000.

Definition DayFromYear (y : Z) : Z :=
  365 * (y - 1970) + (y - 1969) / 4 - (y - 1901) / 100 + (y - 1601) / 400.

Definition InLeapYear (y : Z) : bool :=
  if negb (y mod 4 =? 0) then false
  else if negb (y mod 100 =? 0) then true
  else if negb (y mod 400 =? 0) then false
  else true.

(** Day number, within its year, of the first day of month [m] (0 to 11);
    [m = 12] gives the length of the year. *)
Definition month_start (leap : bool) (m : Z) : Z :=
  let l := if leap then 1 else 0 in
  match m with
  | 0 => 0
  | 1 => 31
  | 2 => 59 + l
  | 3 => 90 + l
  | 4 => 120 + l
  | 5 => 151 + l
  | 6 => 181 + l
  | 7 => 212 + l
  | 8 => 243 + l
  | 9 => 273 + l
  | 10 => 304 + l
  | 11 => 334 + l
  | _ => 365 + l
  end.

Definition DaysInMonth (y m : Z) : Z :=
  month_start (InLeapYear y) (m + 1) - month_start (InLeapYear y) m.

(** [MakeDay(year, month, date)] for a month in 0..11 *)
Definition MakeDay (y m d : Z) : Z :=
  DayFromYear y + month_start (InLeapYear y) m + d - 1.

(** The year that day [day] (counted from 1 January 1970) falls in. *)
Definition YearFromDay (day : Z) : Z :=
  let y0 := 1970 + day * 400 / 146097 in
  if day <? DayFromYear y0 then y0 - 1
  else if DayFromYear (y0 + 1) <=? day then y0 + 1
  else y0.

(** The month (0 to 11) that day [d] of a year falls in. *)
Definition MonthFromDayInYear (leap : bool) (d : Z) : Z :=
  if d <? month_start leap 1 then 0
  else if d <? month_start leap 2 then 1
  else if d <? month_start leap 3 then 2
  else if d <? month_start leap 4 then 3
  else if d <? month_start leap 5 then 4
  else if d <? month_start leap 6 then 5
  else if d <? month_start leap 7 then 6
  else if d <? month_start leap 8 then 7
  else if d <? month_start leap 9 then 8
  else if d <? month_start leap 10 then 9
  else if d <? month_start leap 11 then 10
  else 11.

Definition digit_char (d : Z) : ascii := ascii_of_N (Z.to_N (48 + d)).

(** The last [width] decimal digits of [n], zero-padded. *)
Fixpoint pad (width : nat) (n : Z) : string :=
  match width with
  | O => EmptyString
  | S w => pad w (n / 10) +:+ String (digit_char (n mod 10)) EmptyString
  end.

(** Years 0 to 9999 print with four digits, all others with a sign and six. *)
Definition iso_year (y : Z) : string :=
  if (0 <=? y) && (y <=? 9999) then pad 4 y
  else if y <? 0 then "-" +:+ pad 6 (- y)
  else "+" +:+ pad 6 y.

(** [new Date(tv).toISOString()]; a time value out of range makes the date
    invalid, and [toISOString] throws. *)
Definition toISOString (tv : Z) : result string :=
  if (tv <? - maxTime) || (maxTime <? tv)
  then Throw (RangeError "Invalid time value")
  else
    let day := tv / msPerDay in
    let ms := tv mod msPerDay in
    let y := YearFromDay day in
    let diy := day - DayFromYear y in
    let m := MonthFromDayInYear (InLeapYear y) diy in
    let d := diy - month_start (InLeapYear y) m + 1 in
    Ok (iso_year y +:+ "-" +:+ pad 2 (m + 1) +:+ "-" +:+ pad 2 d +:+ "T" +:+
        pad 2 (ms / 3600000) +:+ ":" +:+ pad 2 (ms / 60000 mod 60) +:+ ":" +:+
        pad 2 (ms / 1000 mod 60) +:+ "." +:+ pad 3 (ms mod 1000) +:+ "Z").

(** The date-only form [YYYY-MM-DD] of the date-time string format, which
    is read as UTC midnight.  Only valid calendar dates are decided here. *)
Definition parse_iso_date (s : string) : option Z :=
  match s with
  | String y1 (String y2 (String y3 (String y4 (String "-"
     (String m1 (String m2 (String "-"
       (String d1 (String d2 EmptyString))))))))) =>
      if forallb is_digit [y1; y2; y3; y4; m1; m2; d1; d2] then
        let y := digits_value (String y1 (String y2 (String y3 (String y4 ""))))
        in
        let m := digits_value (String m1 (String m2 "")) in
        let d := digits_value (String d1 (String d2 "")) in
        if (1 <=? m) && (m <=? 12) && (1 <=? d) && (d <=? DaysInMonth y (m - 1))
        then Some (MakeDay y (m - 1) d * msPerDay)
        else None
      else None
  | _ => None
  end.

(** [Date.parse(s)] *)
Definition Date_parse `{engine : Engine} (s : string) : option Z :=
  match parse_iso_date s with
  | Some tv => Some tv
  | None => Date_parse_rest s
  end.

(** *** More of strings and objects, for [parseArgs] and
    [maybeLoadEnvFile] *)

(** [s.startsWith(p)] *)
Definition startsWith (s p : string) : bool := String.prefix p s.

(** [s.slice(n)] and [s.slice(0, n)], for an index that is not negative *)
Fixpoint slice_from (n : nat) (s : string) : string :=
  match n, s with
  | O, _ => s
  | S n', String _ s' => slice_from n' s'
  | S _, EmptyString => EmptyString
  end.

Fixpoint slice_to (n : nat) (s : string) : string :=
  match n, s with
  | O, _ => EmptyString
  | S n', String c s' => String c (slice_to n' s')
  | S _, EmptyString => EmptyString
  end.

(** [s.indexOf(c)] for a character; [None] stands for [-1]. *)
Fixpoint indexOf (c : ascii) (s : string) : option nat :=
  match s with
  | EmptyString => None
  | String d s' => if Ascii.eqb d c then Some O else S <$> indexOf c s'
  end.

Definition LF : ascii := ascii_of_N 10.
Definition CR : ascii := ascii_of_N 13.

(** [text.split(/\r?\n/)]: a line ends at a line feed, and a carriage return
    right in front of it belongs to the line end. *)
Fixpoint split_lines (s : string) : list string :=
  match s with
  | EmptyString => [EmptyString]
  | String c s' =>
      if Ascii.eqb c LF then EmptyString :: split_lines s'
      else
        let keep :=
          match split_lines s' with
          | [] => [String c EmptyString]
          | piece :: pieces => String c piece :: pieces
          end in
        if Ascii.eqb c CR then
          match s' with
          | String d s'' =>
              if Ascii.eqb d LF then EmptyString :: split_lines s'' else keep
          | EmptyString => keep
          end
        else keep
  end.

(** The single and the double quote *)
Definition is_quote (c : ascii) : bool := (code c =? 39) || (code c =? 34).

Fixpoint drop_last_quote (s : string) : string :=
  match s with
  | EmptyString => EmptyString
  | String c EmptyString => if is_quote c then EmptyString else s
  | String c s' => String c (drop_last_quote s')
  end.

(** [s.replace(re, '')] for the global pattern that matches a quote, single
    or double, at the very start or at the very end: a quote at the start
    goes, and so does a quote at the end; on a string of one character both
    are the same quote. *)
Definition unquote (s : string) : string :=
  match s with
  | String c s' => if is_quote c then drop_last_quote s' else drop_last_quote s
  | EmptyString => EmptyString
  end.

(** [o[k] = v] on a plain object [o] and a string or boolean [v].  The map
    holds the object's own properties; [__proto__] names the accessor of the
    prototype, whose setter ignores a value that is not an object. *)
Definition assign {V} (k : string) (v : V) (o : gmap string V)
    : gmap string V :=
  if String.eqb k "__proto__" then o else <[k := v]> o.

End JS.

Infix "|||" := JS.or (at level 50, left associativity).

(** ** The data

    A raw message is a record of the remote service's message list, with the
    fields that the service documents and the pipeline reads: a message id (a
    string), the sender, the body (a string) and the send time, a whole number
    of epoch seconds.  The sender may be missing, and so may either of its two
    fields.  On fields of these types the guards [x || ''] and [x || 0] of
    [normalizeReadMessage] change nothing, and [Number(msg.send_time)] is the
    send time itself. *)

Module Raw.

Record Account : Type := {
  account_id : option Z;
  name : option string;
}.

Record Message : Type := {
  message_id : string;
  account : option Account;
  body : string;
  send_time : Z;
}.

End Raw.

(** What [client.request] hands back for a successful response: the parsed
    JSON document, the response text when it is not JSON, or [null] for an
    empty response.  Only an array is a message list. *)
Inductive payload : Type :=
| PNull
| PBool (b : bool)
| PNumber (z : Z)
| PText (s : string)
| PObject (keys : list string)
| PArray (msgs : list Raw.Message).

Record CanonicalMessage : Type := {
  roomId : string;
  messageId : string;
  sendTimeUnix : Z;
  sendTimeIso : option string;
  accountId : option Z;
  accountName : option string;
  body : string;
  rawBody : string;
}.

(** ** The remote service

    [runRead] and [runWrite] are [async] functions that await at most one call
    of the client.  Such a function either finishes on its own or stops at a
    request and goes on with the payload of the response; a client answers a
    request with a payload or fails, and its failure is the function's. *)

Inductive request : Type :=
| GetRoomMessages (roomId : jsval) (force : Z)
| PostRoomMessage (roomId : jsval) (body : string).

Inductive proc (A : Type) : Type :=
| Return (r : result A)
| Await (req : request) (k : payload → result A).
Arguments Return {A} r.
Arguments Await {A} req k.

Abbreviation Client := (request → result payload).

Definition run {A} (client : Client) (p : proc A) : result A :=
  match p with
  | Return r => r
  | Await req k => client req ≫= k
  end.

(** A step that may throw, inside an [async] function. *)
Definition attempt {A B} (r : result A) (k : A → proc B) : proc B :=
  match r with
  | Ok a => k a
  | Throw e => Return (Throw e)
  end.

Notation "x ⇐ r ; k" := (attempt r (λ x, k))
  (at level 20, r at level 100, k at level 200, only parsing,
   right associativity).

(** ** [parseIntSafe], [parseUnixTime], [parseBool01]

    A time value is a whole number of milliseconds of magnitude at most
    [maxTime], far below [2^53]; on such a number the double quotient
    [ms / 1000] and the exact quotient have the same floor, which is the
    quotient of [Z]. *)

Definition parseIntSafe `{engine : Engine} (value : jsval) (fallback : number)
    : number :=
  let n := JS.Number value in
  if JS.isFinite n then n else fallback.

Definition parseUnixTime `{engine : Engine} (input : jsval)
    (optionName : string) : result (option number) :=
  match input with
  | None | Some (OStr EmptyString) => Ok None
  | _ =>
      if JS.digits_test (JS.String_ input) then Ok (Some (JS.Number input))
      else
        match JS.Date_parse (JS.String_ input) with
        | None =>
            Throw (Error ("Invalid " +:+ optionName +:+ ": " +:+
                          JS.String_ input))
        | Some ms => Ok (Some (JS.of_Z (ms / 1000)))
        end
  end.

Definition parseBool01 (value : jsval) (fallback : Z) : Z :=
  match value with
  | None | Some (OStr EmptyString) => fallback
  | Some OTrue => 1
  | _ =>
      let normalized := JS.toLowerCase (JS.String_ value) in
      if String.eqb normalized "1" || String.eqb normalized "true" then 1
      else if String.eqb normalized "0" || String.eqb normalized "false" then 0
      else fallback
  end.

(** ** [resolveToken] *)

Definition resolveToken (options : gmap string optval)
    (process_env envFromFile : gmap string string) : jsval :=
  options !! "token" |||
  JS.prop process_env "CHATWORK_API_TOKEN" |||
  JS.prop process_env "CHATWORK_TOKEN" |||
  JS.prop envFromFile "CHATWORK_API_TOKEN" |||
  JS.prop envFromFile "CHATWORK_TOKEN".

(** The five sources, in the order of the chain. *)
Definition token_sources (options : gmap string optval)
    (process_env envFromFile : gmap string string) : list jsval :=
  [ options !! "token";
    JS.prop process_env "CHATWORK_API_TOKEN";
    JS.prop process_env "CHATWORK_TOKEN";
    JS.prop envFromFile "CHATWORK_API_TOKEN";
    JS.prop envFromFile "CHATWORK_TOKEN" ].

(** A chain [v0 || v1 || ... || vn], associated to the left. *)
Definition or_chain (v0 : jsval) (vs : list jsval) : jsval :=
  fold_left JS.or vs v0.

(** ** [stripCommonChatworkTags], [normalizeReadMessage] *)

(** [/\[To:\d+\]/] *)
Definition re_to : JS.matcher :=
  JS.seq (JS.lit "[To:") (JS.seq JS.digits1 (JS.lit "]")).

(** [/\[rp aid=\d+ to=\d+-\d+\]/] *)
Definition re_rp : JS.matcher :=
  JS.seq (JS.lit "[rp aid=") (JS.seq JS.digits1
    (JS.seq (JS.lit " to=") (JS.seq JS.digits1
      (JS.seq (JS.lit "-") (JS.seq JS.digits1 (JS.lit "]")))))).

(** [/\[info\]|\[\/info\]|\[title\]|\[\/title\]|\[code\]|\[\/code\]|
     \[qt\]|\[\/qt\]/] *)
Definition re_block : JS.matcher :=
  JS.alt (JS.lit <$> ["[info]"; "[/info]"; "[title]"; "[/title]";
                      "[code]"; "[/code]"; "[qt]"; "[/qt]"]).

Definition stripCommonChatworkTags (body : string) : string :=
  JS.trim
    (JS.remove_all re_block
       (JS.remove_all re_rp
          (JS.remove_all re_to (JS.str_or body "")))).

Definition normalizeReadMessage (roomId : jsval) (rawMessage : Raw.Message)
    (stripTags : bool) : result CanonicalMessage :=
  let rawBody := JS.str_or (Raw.body rawMessage) "" in
  let body := if stripTags then stripCommonChatworkTags rawBody else rawBody in
  let sendTimeUnix := JS.num_or (Raw.send_time rawMessage) 0 in
  sendTimeIso ←
    (if negb (sendTimeUnix =? 0)
     then Some <$> JS.toISOString (sendTimeUnix * 1000)
     else Ok None);
  Ok {| roomId := JS.String_ roomId;
        messageId := JS.str_or (Raw.message_id rawMessage) "";
        sendTimeUnix := sendTimeUnix;
        sendTimeIso := sendTimeIso;
        accountId := Raw.account rawMessage ≫= Raw.account_id;
        accountName := Raw.account rawMessage ≫= Raw.name;
        body := body;
        rawBody := rawBody |}.

(** ** [buildChatworkBody] *)

Definition newline : string := String (ascii_of_N 10) EmptyString.

Definition nonempty (s : string) : bool := negb (String.eqb s "").

Definition buildChatworkBody (roomId : jsval) (messageBody : string)
    (options : gmap string optval) : result string :=
  let lines : list string := [] in
  let lines :=
    if JS.truthy (options !! "to") then
      let ids :=
        List.filter nonempty
          (JS.trim <$> JS.split "," (JS.String_ (options !! "to"))) in
      lines ++ ((λ id, "[To:" +:+ id +:+ "]") <$> ids)
    else lines in
  let replyAccount := options !! "reply-account" in
  let replyMessage := options !! "reply-message" in
  if (JS.truthy replyAccount && negb (JS.truthy replyMessage)) ||
     (negb (JS.truthy replyAccount) && JS.truthy replyMessage)
  then Throw (Error "Use --reply-account and --reply-message together.")
  else
    let lines :=
      if JS.truthy replyAccount && JS.truthy replyMessage then
        lines ++ ["[rp aid=" +:+ JS.String_ replyAccount +:+ " to=" +:+
                  JS.String_ roomId +:+ "-" +:+ JS.String_ replyMessage +:+ "]"]
      else lines in
    Ok (JS.join newline (lines ++ [messageBody])).

(** ** [runRead]

    The function ends by printing the sequence it has computed; the sequence
    is what is returned here. *)

Definition isArray (raw : payload) : bool :=
  match raw with PArray _ => true | _ => false end.

Definition elements (raw : payload) : list Raw.Message :=
  match raw with PArray msgs => msgs | _ => [] end.

Definition runRead `{engine : Engine} (options : gmap string optval)
    : proc (list CanonicalMessage) :=
  let roomId := options !! "room" in
  if negb (JS.truthy roomId)
  then Return (Throw (Error "read requires --room <roomId>."))
  else
    let limit :=
      JS.Math_max (JS.of_Z 1)
        (JS.Math_min (JS.of_Z 100)
           (parseIntSafe (options !! "limit") (JS.of_Z 30))) in
    since ⇐ parseUnixTime (options !! "since") "--since";
    until ⇐ parseUnixTime (options !! "until") "--until";
    let contains :=
      if JS.truthy (options !! "contains")
      then JS.String_ (options !! "contains") else "" in
    let force := parseBool01 (options !! "force") 1 in
    let stripTags := JS.truthy (options !! "strip-tags") in
    Await (GetRoomMessages roomId force) (λ raw,
      mapM (λ msg, normalizeReadMessage roomId msg stripTags)
        (JS.slice (JS.neg limit)
           (JS.sort (λ a b, Raw.send_time a - Raw.send_time b)
              (List.filter
                 (λ msg, if nonempty contains
                         then JS.includes (JS.str_or (Raw.body msg) "") contains
                         else true)
                 (List.filter
                    (λ msg, match until with
                            | Some u => JS.le (JS.of_Z (Raw.send_time msg)) u
                            | None => true
                            end)
                    (List.filter
                       (λ msg, match since with
                               | Some s => JS.ge (JS.of_Z (Raw.send_time msg)) s
                               | None => true
                               end)
                       (if isArray raw then elements raw else []))))))).

(** The constants and the stages of [runRead], by name. *)

(** [limit] *)
Definition read_limit `{engine : Engine} (options : gmap string optval)
    : number :=
  JS.Math_max (JS.of_Z 1)
    (JS.Math_min (JS.of_Z 100)
       (parseIntSafe (options !! "limit") (JS.of_Z 30))).

(** [contains] *)
Definition read_contains (options : gmap string optval) : string :=
  if JS.truthy (options !! "contains")
  then JS.String_ (options !! "contains") else "".

(** The two [filter] calls on the send time. *)
Definition window_stage (since until : option number)
    (msgs : list Raw.Message) : list Raw.Message :=
  List.filter
    (λ msg, match until with
            | Some u => JS.le (JS.of_Z (Raw.send_time msg)) u
            | None => true
            end)
    (List.filter
       (λ msg, match since with
               | Some s => JS.ge (JS.of_Z (Raw.send_time msg)) s
               | None => true
               end)
       msgs).

(** The [filter] call on the body. *)
Definition contains_stage (contains : string)
    (msgs : list Raw.Message) : list Raw.Message :=
  List.filter
    (λ msg, if nonempty contains
            then JS.includes (JS.str_or (Raw.body msg) "") contains
            else true)
    msgs.

(** The [sort] call. *)
Definition sort_stage (msgs : list Raw.Message) : list Raw.Message :=
  JS.sort (λ a b, Raw.send_time a - Raw.send_time b) msgs.

(** The records that [runRead] goes on to normalise: what is left of the
    payload after the filters, the sort and the slice. *)
Definition read_kept `{engine : Engine} (options : gmap string optval)
    (since until : option number) (raw : payload) : list Raw.Message :=
  JS.slice (JS.neg (read_limit options))
    (sort_stage
       (contains_stage (read_contains options)
          (window_stage since until (elements raw)))).

(** ** [resolveWriteMessage], [runWrite]

    The message text comes from [--message], else from the file named by
    [--file], else from standard input, which yields nothing on a terminal.
    Reading the file and standard input is left to the caller, who passes
    their contents. *)

Record Input : Type := {
  file_text : string;
  stdin_text : option string;
}.

Definition readStdinMessage (input : Input) : string :=
  match stdin_text input with
  | None => ""
  | Some text => JS.trim text
  end.

Definition resolveWriteMessage (options : gmap string optval) (input : Input)
    : string :=
  if JS.truthy (options !! "message") then JS.String_ (options !! "message")
  else if JS.truthy (options !! "file") then JS.trim (file_text input)
  else readStdinMessage input.

Inductive WriteOutput : Type :=
| Preview (roomId : string) (body : string)
| Sent (response : payload).

Definition runWrite (options : gmap string optval) (input : Input)
    : proc WriteOutput :=
  let roomId := options !! "room" in
  if negb (JS.truthy roomId)
  then Return (Throw (Error "write requires --room <roomId>."))
  else
    let messageBody := resolveWriteMessage options input in
    if negb (nonempty messageBody)
    then Return (Throw (Error
           "write requires message text via --message, --file, or stdin."))
    else
      body ⇐ buildChatworkBody roomId messageBody options;
      if JS.truthy (options !! "dry-run")
      then Return (Ok (Preview (JS.String_ roomId) body))
      else
        Await (PostRoomMessage roomId body) (λ response, Ok (Sent response)).

(** ** [parseArgs]

    The loop runs over the arguments with an index that a flag advances by
    one more step when it takes the next argument as its value.  The result
    is the pair of [options] and [positionals]. *)

Fixpoint parseArgs_loop (argv : list string) (options : gmap string optval)
    (positionals : list string) : gmap string optval * list string :=
  match argv with
  | [] => (options, positionals)
  | arg :: rest =>
      if negb (JS.startsWith arg "--")
      then parseArgs_loop rest options (positionals ++ [arg])
      else
        let body := JS.slice_from 2 arg in
        if JS.includes body "=" then
          match JS.split "=" body with
          | key :: pieces =>
              parseArgs_loop rest
                (JS.assign key (OStr (JS.join "=" pieces)) options) positionals
          | [] =>
              parseArgs_loop rest (JS.assign "undefined" (OStr "") options)
                positionals
          end
        else
          match rest with
          | next :: rest' =>
              if nonempty next && negb (JS.startsWith next "--")
              then parseArgs_loop rest' (JS.assign body (OStr next) options)
                     positionals
              else parseArgs_loop rest (JS.assign body OTrue options)
                     positionals
          | [] => parseArgs_loop rest (JS.assign body OTrue options) positionals
          end
  end.

Definition parseArgs (argv : list string) : gmap string optval * list string :=
  parseArgs_loop argv ∅ [].

(** ** [maybeLoadEnvFile]

    Reading the file is the caller's: [readFile] answers with the text of the
    file at a path, or fails. *)

(** The body of the loop: the key and the value that a line defines. *)
Definition env_entry (rawLine : string) : option (string * string) :=
  let line := JS.trim rawLine in
  if negb (nonempty line) || JS.startsWith line "#" then None
  else
    match JS.indexOf "=" line with
    | None => None
    | Some idx =>
        let key := JS.trim (JS.slice_to idx line) in
        let value := JS.unquote (JS.trim (JS.slice_from (S idx) line)) in
        Some (key, value)
    end.

Definition env_step (envMap : gmap string string) (rawLine : string)
    : gmap string string :=
  match env_entry rawLine with
  | None => envMap
  | Some (key, value) => JS.assign key value envMap
  end.

(** The loop over the lines of the text. *)
Definition loadEnvText (text : string) : gmap string string :=
  foldl env_step ∅ (JS.split_lines text).

Definition maybeLoadEnvFile (filePath : jsval)
    (readFile : jsval → result string) : result (gmap string string) :=
  if negb (JS.truthy filePath) then Ok ∅
  else text ← readFile filePath; Ok (loadEnvText text).

(** ** [main]

    [main] decides which handler runs, with which client and options; the
    handlers [runRead] and [runWrite] are above.  [argv] is
    [process.argv.slice(2)]. *)

Inductive command : Type := Me | Rooms | Read | Write.

Inductive dispatch : Type :=
| ShowHelp
| Handler (cmd : command) (client : jsval) (options : gmap string optval).

Definition exn_message (e : exn) : string :=
  match e with Error m | RangeError m => m end.

(** [argv.includes(x)] *)
Definition argv_includes (argv : list string) (x : string) : bool :=
  existsb (String.eqb x) argv.

Definition main (argv : list string) (process_env : gmap string string)
    (readFile : jsval → result string) : result dispatch :=
  match argv with
  | [] => Ok ShowHelp
  | command :: args =>
      if argv_includes argv "--help" || argv_includes argv "-h"
      then Ok ShowHelp
      else
        let options := (parseArgs args).1 in
        if String.eqb command "help" then Ok ShowHelp
        else
          envFromFile ←
            match maybeLoadEnvFile (options !! "env-file") readFile with
            | Ok envMap => Ok envMap
            | Throw err =>
                Throw (Error ("Failed to read --env-file: " +:+
                              exn_message err))
            end;
          let token := resolveToken options process_env envFromFile in
          let allowNoToken :=
            String.eqb command "write" && JS.truthy (options !! "dry-run") in
          if negb (JS.truthy token) && negb allowNoToken
          then Throw (Error
                 "Missing API token. Set CHATWORK_API_TOKEN or use --token.")
          else
            let client := if JS.truthy token then token else None in
            if String.eqb command "me" then Ok (Handler Me client options)
            else if String.eqb command "rooms"
            then Ok (Handler Rooms client options)
            else if String.eqb command "read"
            then Ok (Handler Read client options)
            else if String.eqb command "write"
            then Ok (Handler Write client options)
            else Throw (Error ("Unknown command: " +:+ command))
  end.

(** ** Notions the statements are written in *)

(** [needle] occurs in [s]. *)
Definition substring (needle s : string) : Prop :=
  ∃ pre post, s = pre +:+ needle +:+ post.

(** [a ≤ b] on numbers; nothing is related to [NaN]. *)
Definition num_le (a b : number) : Prop :=
  match a, b with
  | NaN, _ | _, NaN => False
  | NegInf, _ => True
  | _, PosInf => True
  | PosInf, _ => False
  | _, NegInf => False
  | Fin x, Fin y => (x <= y)%Q
  end.

(** The order that the comparator of [runRead] sorts by. *)
Definition by_send_time (a b : Raw.Message) : Prop :=
  Raw.send_time a ≤ Raw.send_time b.

(** The send time [t] is within the bounds that were supplied. *)
Definition within (since until : option number) (t : Z) : Prop :=
  (∀ s, since = Some s → num_le s (JS.of_Z t)) ∧
  (∀ u, until = Some u → num_le (JS.of_Z t) u).

(** The character [c] occurs in [s]. *)
Fixpoint occurs (c : ascii) (s : string) : bool :=
  match s with
  | EmptyString => false
  | String d s' => Ascii.eqb d c || occurs c s'
  end.

(** [s] consists of white space only. *)
Fixpoint all_ws (s : string) : bool :=
  match s with
  | EmptyString => true
  | String c s' => JS.is_ws c && all_ws s'
  end.

(** [s] neither starts nor ends with white space. *)
Definition starts_with_ws (s : string) : bool :=
  match s with
  | EmptyString => false
  | String c _ => JS.is_ws c
  end.
Fixpoint ends_with_ws (s : string) : bool :=
  match s with
  | EmptyString => false
  | String c EmptyString => JS.is_ws c
  | String _ s' => ends_with_ws s'
  end.

(** [t] is [s] without the white space around it. *)
Definition trimmed_of (s t : string) : Prop :=
  (∃ l r, s = l +:+ t +:+ r ∧ all_ws l = true ∧ all_ws r = true) ∧
  starts_with_ws t = false ∧ ends_with_ws t = false.

(** The [--to] option as text: what [String(options.to)] is when the option
    was given, and empty when it was not. *)
Definition addressees (options : gmap string optval) : string :=
  match options !! "to" with
  | None => ""
  | Some v => JS.String_ (Some v)
  end.

(** The error of [buildChatworkBody]. *)
Definition reply_pair_error : exn :=
  Error "Use --reply-account and --reply-message together.".

(** The tags that [stripCommonChatworkTags] knows: an addressee, a reply
    reference, and the opening and closing block tags. *)
Definition to_tag (id : string) : string := "[To:" +:+ id +:+ "]".

Definition rp_tag (aid room msg : string) : string :=
  "[rp aid=" +:+ aid +:+ " to=" +:+ room +:+ "-" +:+ msg +:+ "]".

Definition block_tags : list string :=
  ["[info]"; "[/info]"; "[title]"; "[/title]";
   "[code]"; "[/code]"; "[qt]"; "[/qt]"].

(** A raw record and its normalisation with the strip flag, for reference. *)
Definition example_raw : Raw.Message :=
  {| Raw.message_id := "5";
     Raw.account := Some {| Raw.account_id := Some 7; Raw.name := Some "Ada" |};
     Raw.body := "[To:7] hello [info]there[/info] ";
     Raw.send_time := 1700000000 |}.

Definition example_canonical : CanonicalMessage :=
  {| roomId := "42";
     messageId := "5";
     sendTimeUnix := 1700000000;
     sendTimeIso := Some "2023-11-14T22:13:20.000Z";
     accountId := Some 7;
     accountName := Some "Ada";
     body := "hello there";
     rawBody := "[To:7] hello [info]there[/info] " |}.

(** A message with another [body]. *)
Definition with_body (m : CanonicalMessage) (text : string)
    : CanonicalMessage :=
  {| roomId := roomId m; messageId := messageId m;
     sendTimeUnix := sendTimeUnix m; sendTimeIso := sendTimeIso m;
     accountId := accountId m; accountName := accountName m;
     body := text; rawBody := rawBody m |}.

(** A record with the send time [t], for the scenarios. *)
Definition record_at (t : Z) : Raw.Message :=
  {| Raw.message_id := "m"; Raw.account := None; Raw.body := "text";
     Raw.send_time := t |}.

(** A host that recognises nothing beyond what is modelled above. *)
Definition strict_engine : Engine :=
  {| StringToNumber_rest := λ _, NaN; Date_parse_rest := λ _, None |}.

(** A host that reads one date-time string more: half a second before the
    epoch, which [Date.parse] gives as -500 milliseconds. *)
Definition half_second_engine : Engine :=
  {| StringToNumber_rest := λ _, NaN;
     Date_parse_rest := λ s,
       if String.eqb s "1969-12-31T23:59:59.500Z" then Some (-500) else None |}.

(* ================================================================== *)
(** * Properties *)
(* ================================================================== *)

(** ** The [||] chain of [resolveToken] *)

Lemma or_truthy_l a b : JS.truthy a = true → a ||| b = a.
Proof. unfold JS.or. by intros ->. Qed.

Lemma or_falsy_l a b : JS.truthy a = false → a ||| b = b.
Proof. unfold JS.or. by intros ->. Qed.

Lemma or_chain_truthy v vs : JS.truthy v = true → or_chain v vs = v.
Proof.
  revert v. induction vs as [|w vs IH]; intros v Hv; [done|].
  cbn. rewrite or_truthy_l by done. by apply IH.
Qed.

Lemma or_chain_first v vs pre x post :
  v :: vs = pre ++ x :: post →
  Forall (λ w, JS.truthy w = false) pre →
  JS.truthy x = true →
  or_chain v vs = x.
Proof.
  revert v vs. induction pre as [|p pre IH]; intros v vs Heq Hpre Hx.
  - injection Heq as -> ->. by apply or_chain_truthy.
  - injection Heq as -> ->. apply Forall_cons in Hpre as [Hp Hpre].
    destruct pre as [|q pre].
    + cbn. rewrite or_falsy_l by done. by apply or_chain_truthy.
    + cbn [app or_chain fold_left]. rewrite or_falsy_l by done.
      by apply (IH q (pre ++ x :: post)).
Qed.

Lemma or_chain_none v vs :
  Forall (λ w, JS.truthy w = false) (v :: vs) →
  JS.truthy (or_chain v vs) = false.
Proof.
  revert v. induction vs as [|w vs IH]; intros v Hall.
  - by apply Forall_cons in Hall as [Hv _].
  - apply Forall_cons in Hall as [Hv Hall].
    cbn [or_chain fold_left]. rewrite or_falsy_l by done. by apply IH.
Qed.

Lemma falsy_absent (v : jsval) :
  JS.truthy v = false ↔ v = None ∨ v = Some (OStr "").
Proof.
  split.
  - destruct v as [[|s]|]; cbn; [done| |by left].
    destruct (String.eqb_spec s ""); [subst; by right|done].
  - by intros [-> | ->].
Qed.

Lemma resolveToken_chain options process_env envFromFile :
  resolveToken options process_env envFromFile =
  or_chain (options !! "token")
    (List.tl (token_sources options process_env envFromFile)).
Proof. reflexivity. Qed.

(** C4.  The credential resolver returns the first non-empty value among the
    explicit token, the two environment variables and the two keys of the
    env file, in this order; and when all five are empty or missing, what it
    returns is absent: [undefined] or the empty string, which the caller's
    [!token] treats alike. *)
Theorem resolveToken_precedence options process_env envFromFile :
  let sources := token_sources options process_env envFromFile in
  let token := resolveToken options process_env envFromFile in
  sources =
    [ options !! "token";
      OStr <$> process_env !! "CHATWORK_API_TOKEN";
      OStr <$> process_env !! "CHATWORK_TOKEN";
      OStr <$> envFromFile !! "CHATWORK_API_TOKEN";
      OStr <$> envFromFile !! "CHATWORK_TOKEN" ] ∧
  (∀ earlier v later,
      sources = earlier ++ v :: later →
      Forall (λ w, JS.truthy w = false) earlier →
      JS.truthy v = true →
      token = v) ∧
  (Forall (λ w, JS.truthy w = false) sources →
      token = None ∨ token = Some (OStr "")).
Proof.
  intros sources token. split; [done|]. split.
  - intros earlier v later Hsplit Hearlier Hv.
    unfold token. rewrite resolveToken_chain.
    by apply (or_chain_first _ _ earlier v later).
  - intros Hall. apply falsy_absent.
    unfold token. rewrite resolveToken_chain. by apply or_chain_none.
Qed.

Lemma resolveToken_precedence_witness :
  resolveToken {[ "token" := OStr "" ]}
    {[ "CHATWORK_TOKEN" := "env2" ]}
    {[ "CHATWORK_API_TOKEN" := "file1"; "CHATWORK_TOKEN" := "file2" ]}
  = Some (OStr "env2") ∧
  (resolveToken ∅ {[ "CHATWORK_API_TOKEN" := "" ]} {[ "CHATWORK_TOKEN" := "" ]}
     = None ∨
   resolveToken ∅ {[ "CHATWORK_API_TOKEN" := "" ]} {[ "CHATWORK_TOKEN" := "" ]}
     = Some (OStr "")).
Proof.
  split.
  - refine (proj1 (proj2 (resolveToken_precedence _ _ _))
              [Some (OStr ""); None] (Some (OStr "env2"))
              [Some (OStr "file1"); Some (OStr "file2")] _ _ _).
    + vm_compute. reflexivity.
    + repeat constructor.
    + reflexivity.
  - refine (proj2 (proj2 (resolveToken_precedence _ _ _)) _).
    vm_compute. repeat constructor.
Defined.

(** ** Strings: [split], [join], [trim] *)

Lemma string_app_nil (s : string) : "" +:+ s = s.
Proof. reflexivity. Qed.

Lemma string_app_cons c (s t : string) : String c s +:+ t = String c (s +:+ t).
Proof. reflexivity. Qed.

Lemma string_app_assoc (s t u : string) : (s +:+ t) +:+ u = s +:+ t +:+ u.
Proof.
  induction s as [|c s IH]; [done|]. by rewrite !string_app_cons, IH.
Qed.

Lemma string_app_nil_r (s : string) : s +:+ "" = s.
Proof. induction s as [|c s IH]; [done|]. by rewrite string_app_cons, IH. Qed.

Lemma split_nonempty sep s : JS.split sep s ≠ [].
Proof. destruct s as [|c s]; cbn; [done|]. by repeat case_match. Qed.

Lemma split_free sep s : occurs sep s = false → JS.split sep s = [s].
Proof.
  induction s as [|c s IH]; cbn; [done|].
  intros [Hc Hs]%orb_false_iff. rewrite Hc, (IH Hs). done.
Qed.

Lemma split_app sep s t :
  occurs sep s = false →
  JS.split sep (s +:+ String sep t) = s :: JS.split sep t.
Proof.
  induction s as [|c s IH].
  - intros _. rewrite string_app_nil. cbn. by rewrite Ascii.eqb_refl.
  - intros [Hc Hs]%orb_false_iff. rewrite string_app_cons. cbn.
    rewrite Hc. by rewrite (IH Hs).
Qed.

(** Splitting undoes joining, for pieces that are free of the separator. *)
Lemma split_join sep (pieces : list string) :
  pieces ≠ [] →
  Forall (λ p, occurs sep p = false) pieces →
  JS.split sep (JS.join (String sep "") pieces) = pieces.
Proof.
  induction pieces as [|p pieces IH]; [done|]. intros _ Hfree.
  apply Forall_cons in Hfree as [Hp Hfree].
  destruct pieces as [|q pieces]; cbn [JS.join].
  - by apply split_free.
  - rewrite string_app_cons, string_app_nil.
    rewrite split_app by done. f_equal. by apply IH.
Qed.

Lemma trim_start_decompose s :
  ∃ l, s = l +:+ JS.trim_start s ∧ all_ws l = true.
Proof.
  induction s as [|c s (l & Hs & Hl)]; cbn.
  - by exists "".
  - destruct (JS.is_ws c) eqn:Hc.
    + exists (String c l). cbn. rewrite Hc, Hl. split; [|done].
      by rewrite string_app_cons, <- Hs.
    + by exists "".
Qed.

Lemma trim_start_head s : starts_with_ws (JS.trim_start s) = false.
Proof.
  induction s as [|c s IH]; cbn; [done|].
  destruct (JS.is_ws c) eqn:Hc; [done|]. cbn. done.
Qed.

Lemma trim_end_decompose s :
  ∃ r, s = JS.trim_end s +:+ r ∧ all_ws r = true.
Proof.
  induction s as [|c s (r & Hs & Hr)]; cbn.
  - by exists "".
  - destruct (JS.trim_end s) as [|d t] eqn:Ht.
    + destruct (JS.is_ws c) eqn:Hc.
      * exists (String c r). cbn. rewrite Hc, Hr. split; [|done].
        rewrite string_app_nil. rewrite string_app_nil in Hs. by rewrite Hs.
      * exists r. split; [|done]. rewrite string_app_cons.
        by rewrite Hs at 1.
    + exists r. split; [|done]. rewrite string_app_cons. by rewrite Hs at 1.
Qed.

Lemma trim_end_last s : ends_with_ws (JS.trim_end s) = false.
Proof.
  induction s as [|c s IH]; cbn; [done|].
  destruct (JS.trim_end s) as [|d t] eqn:Ht.
  - destruct (JS.is_ws c) eqn:Hc; cbn; [done|]. done.
  - done.
Qed.

Lemma trim_end_head s :
  starts_with_ws s = false → starts_with_ws (JS.trim_end s) = false.
Proof.
  destruct s as [|c s]; cbn; [done|]. intros Hc.
  destruct (JS.trim_end s); [by rewrite Hc|done].
Qed.

(** [trim] removes the white space around a string, and nothing else. *)
Lemma trim_spec s : trimmed_of s (JS.trim s).
Proof.
  unfold trimmed_of, JS.trim.
  destruct (trim_start_decompose s) as (l & Hs & Hl).
  destruct (trim_end_decompose (JS.trim_start s)) as (r & Ht & Hr).
  split; [|split].
  - exists l, r. split; [|done]. by rewrite <- Ht.
  - apply trim_end_head, trim_start_head.
  - apply trim_end_last.
Qed.

Lemma join_cons sep p q l :
  JS.join sep (p :: q :: l) = p +:+ sep +:+ JS.join sep (q :: l).
Proof. reflexivity. Qed.

(** Joining undoes splitting, and the pieces are free of the separator. *)
Lemma join_split sep s :
  JS.join (String sep "") (JS.split sep s) = s ∧
  Forall (λ p, occurs sep p = false) (JS.split sep s).
Proof.
  induction s as [|c s [Hjoin Hfree]]; [by repeat constructor|].
  cbn [JS.split]. destruct (Ascii.eqb_spec c sep) as [->|Hne].
  - destruct (JS.split sep s) as [|q l] eqn:Hsplit;
      [by apply split_nonempty in Hsplit|].
    rewrite join_cons, Hjoin. split; [done|]. by constructor.
  - destruct (JS.split sep s) as [|q l] eqn:Hsplit;
      [by apply split_nonempty in Hsplit|].
    apply Forall_cons in Hfree as [Hq Hl]. split.
    + destruct l as [|r l]; cbn [JS.join] in *; [by rewrite Hjoin|].
      by rewrite string_app_cons, Hjoin.
    + constructor; [|done]. cbn. rewrite Hq.
      by destruct (Ascii.eqb_spec c sep).
Qed.

(** So every [--to] text is a list of entries separated by commas. *)
Lemma addressees_entries options :
  ∃ entries, Forall (λ e, occurs "," e = false) entries ∧
             addressees options = JS.join "," entries.
Proof.
  exists (JS.split "," (addressees options)).
  destruct (join_split "," (addressees options)) as [Hjoin Hfree]. done.
Qed.

(** ** Dates *)

Lemma DayFromYear_step y :
  365 ≤ JS.DayFromYear (y + 1) - JS.DayFromYear y ≤ 366.
Proof. unfold JS.DayFromYear. Z.div_mod_to_equations. lia. Qed.

(** [YearFromDay] is the year of the specification: the last one that
    starts on or before the day. *)
Lemma YearFromDay_spec day :
  JS.DayFromYear (JS.YearFromDay day) ≤ day
    < JS.DayFromYear (JS.YearFromDay day + 1).
Proof.
  unfold JS.YearFromDay.
  set (y0 := 1970 + day * 400 / 146097).
  assert (JS.DayFromYear (y0 - 1) ≤ day < JS.DayFromYear (y0 + 2)) as Hy0.
  { unfold JS.DayFromYear, y0. Z.div_mod_to_equations. lia. }
  pose proof (DayFromYear_step (y0 - 1)). pose proof (DayFromYear_step y0).
  pose proof (DayFromYear_step (y0 + 1)).
  replace (y0 - 1 + 1) with y0 in * by lia.
  replace (y0 + 1 + 1) with (y0 + 2) in * by lia.
  destruct (Z.ltb_spec day (JS.DayFromYear y0)).
  - replace (y0 - 1 + 1) with y0 by lia. lia.
  - destruct (Z.leb_spec (JS.DayFromYear (y0 + 1)) day).
    + replace (y0 + 1 + 1) with (y0 + 2) by lia. lia.
    + lia.
Qed.

Lemma DayFromYear_mono y1 y2 :
  y1 < y2 → JS.DayFromYear y1 < JS.DayFromYear y2.
Proof. unfold JS.DayFromYear. intros. Z.div_mod_to_equations. lia. Qed.

(** A year has 365 days, or 366 when it is a leap year. *)
Lemma DayFromYear_next y :
  JS.DayFromYear (y + 1) =
  JS.DayFromYear y + JS.month_start (JS.InLeapYear y) 12.
Proof.
  unfold JS.DayFromYear, JS.InLeapYear. cbn [JS.month_start].
  destruct (Z.eqb_spec (y mod 4) 0), (Z.eqb_spec (y mod 100) 0),
    (Z.eqb_spec (y mod 400) 0); cbn [negb];
    Z.div_mod_to_equations; lia.
Qed.

Lemma YearFromDay_unique day y :
  JS.DayFromYear y ≤ day < JS.DayFromYear (y + 1) → JS.YearFromDay day = y.
Proof.
  intros Hy. pose proof (YearFromDay_spec day) as Hspec.
  destruct (Z.lt_trichotomy (JS.YearFromDay day) y) as [Hlt|[Heq|Hgt]];
    [|done|].
  - assert (JS.YearFromDay day + 1 ≤ y) as Hle by lia.
    apply Z.le_lteq in Hle as [Hlt'|Heq].
    + pose proof (DayFromYear_mono _ _ Hlt'). lia.
    + rewrite Heq in Hspec. lia.
  - assert (y + 1 ≤ JS.YearFromDay day) as Hle by lia.
    apply Z.le_lteq in Hle as [Hlt'|Heq].
    + pose proof (DayFromYear_mono _ _ Hlt'). lia.
    + rewrite <- Heq in Hspec. lia.
Qed.

Lemma month_start_bounds leap m :
  0 ≤ m < 12 →
  0 ≤ JS.month_start leap m < JS.month_start leap (m + 1) ∧
  JS.month_start leap (m + 1) ≤ JS.month_start leap 12.
Proof.
  intros Hm.
  assert (m = 0 ∨ m = 1 ∨ m = 2 ∨ m = 3 ∨ m = 4 ∨ m = 5 ∨ m = 6 ∨ m = 7 ∨
          m = 8 ∨ m = 9 ∨ m = 10 ∨ m = 11) as Hcases by lia.
  destruct leap; repeat (destruct Hcases as [->|Hcases]); subst;
    vm_compute; repeat split; discriminate.
Qed.

Lemma MonthFromDayInYear_unique leap m d :
  0 ≤ m < 12 →
  JS.month_start leap m ≤ d < JS.month_start leap (m + 1) →
  JS.MonthFromDayInYear leap d = m.
Proof.
  intros Hm Hd.
  assert (m = 0 ∨ m = 1 ∨ m = 2 ∨ m = 3 ∨ m = 4 ∨ m = 5 ∨ m = 6 ∨ m = 7 ∨
          m = 8 ∨ m = 9 ∨ m = 10 ∨ m = 11) as Hcases by lia.
  unfold JS.MonthFromDayInYear.
  destruct leap; repeat (destruct Hcases as [->|Hcases]); subst;
    simpl in Hd; cbn;
    repeat match goal with
           | |- context [?a <? ?b] => destruct (Z.ltb_spec a b)
           end; lia.
Qed.

(** Year, month and day of a calendar date are read back from its day
    number. *)
Lemma civil_roundtrip y m d :
  0 ≤ m < 12 → 1 ≤ d ≤ JS.DaysInMonth y m →
  let day := JS.MakeDay y m d in
  let leap := JS.InLeapYear y in
  JS.YearFromDay day = y ∧
  JS.MonthFromDayInYear leap (day - JS.DayFromYear y) = m ∧
  day - JS.DayFromYear y - JS.month_start leap m + 1 = d.
Proof.
  intros Hm Hd day leap. unfold JS.DaysInMonth in Hd. fold leap in Hd.
  pose proof (month_start_bounds leap m Hm) as [Hstart Hend].
  assert (day - JS.DayFromYear y = JS.month_start leap m + d - 1) as Hdiy
    by (unfold day, JS.MakeDay; fold leap; lia).
  split; [|split].
  - apply YearFromDay_unique. rewrite DayFromYear_next. fold leap. lia.
  - apply MonthFromDayInYear_unique; [done|]. lia.
  - lia.
Qed.

(** Midnight of a calendar date prints as that date. *)
Lemma toISOString_midnight y m d :
  0 ≤ m < 12 → 1 ≤ d ≤ JS.DaysInMonth y m →
  - JS.maxTime ≤ JS.MakeDay y m d * JS.msPerDay ≤ JS.maxTime →
  JS.toISOString (JS.MakeDay y m d * JS.msPerDay) =
    Ok (JS.iso_year y +:+ "-" +:+ JS.pad 2 (m + 1) +:+ "-" +:+ JS.pad 2 d +:+
        "T00:00:00.000Z").
Proof.
  intros Hm Hd Hrange. unfold JS.toISOString.
  destruct (Z.ltb_spec (JS.MakeDay y m d * JS.msPerDay) (- JS.maxTime));
    [lia|].
  destruct (Z.ltb_spec JS.maxTime (JS.MakeDay y m d * JS.msPerDay)); [lia|].
  cbn [orb].
  rewrite Z.div_mul, Z.mod_mul by done.
  destruct (civil_roundtrip y m d Hm Hd) as (-> & -> & ->).
  reflexivity.
Qed.

(** ** [parseUnixTime] *)

(** Up to [2^53] every natural number is a double. *)
Lemma round_to_double_exact n : n ≤ 2 ^ 53 → JS.round_to_double n = JS.of_Z n.
Proof.
  intros Hn. unfold JS.round_to_double.
  destruct (Z.ltb_spec n (2 ^ 53)) as [|Hge]; [done|].
  assert (n = 2 ^ 53) as -> by lia. by vm_compute.
Qed.

Lemma of_Z_inj a b : JS.of_Z a = JS.of_Z b → a = b.
Proof. by intros [=]. Qed.

(** Beyond [2^53] the result is a multiple of the unit in the last place
    with a significand of 53 bits, and no further than half a unit from the
    number. *)
Lemma round_to_double_near n v :
  2 ^ 53 ≤ n → JS.round_to_double n = JS.of_Z v →
  let ulp := 2 ^ (Z.log2 n - 52) in
  (∃ m, v = m * ulp ∧ 2 ^ 52 ≤ m ≤ 2 ^ 53) ∧ 2 * Z.abs (v - n) ≤ ulp.
Proof.
  intros Hn Hv ulp. unfold JS.round_to_double in Hv.
  destruct (Z.ltb_spec n (2 ^ 53)) as [|_]; [lia|].
  assert (53 ≤ Z.log2 n) as Hlog by (apply Z.log2_le_pow2; lia).
  set (e := Z.log2 n - 52) in *.
  assert (2 ^ e = 2 * 2 ^ (e - 1)) as Hulp.
  { rewrite <- Z.pow_succ_r by lia. f_equal. lia. }
  assert (0 < 2 ^ (e - 1)) as Hhalf by (apply Z.pow_pos_nonneg; lia).
  pose proof (Z.div_mod n (2 ^ e) ltac:(lia)) as Hdiv.
  pose proof (Z.mod_pos_bound n (2 ^ e) ltac:(lia)) as Hmod.
  destruct (Z.log2_spec n ltac:(lia)) as [Hlow Hhigh].
  assert (2 ^ Z.log2 n = 2 ^ 52 * 2 ^ e) as Hsplit.
  { rewrite <- Z.pow_add_r by lia. f_equal. lia. }
  assert (2 ^ Z.succ (Z.log2 n) = 2 ^ 53 * 2 ^ e) as Hsplit'.
  { rewrite <- Z.pow_add_r by lia. f_equal. lia. }
  assert (2 ^ 52 ≤ n / 2 ^ e < 2 ^ 53) as Hq.
  { split.
    - apply Z.div_le_lower_bound; lia.
    - apply Z.div_lt_upper_bound; lia. }
  set (q := n / 2 ^ e) in *. set (r := n mod 2 ^ e) in *.
  fold ulp in Hulp, Hdiv, Hmod, Hv.
  destruct ((2 ^ (e - 1) <? r) || (r =? 2 ^ (e - 1)) && Z.odd q) eqn:Hup.
  - destruct (_ <? 2 ^ 1024); [|done]. apply of_Z_inj in Hv. subst v.
    split; [exists (q + 1); lia|].
    assert (2 ^ (e - 1) ≤ r) as Hr.
    { apply orb_true_iff in Hup as [Hup|[Hup _]%andb_true_iff]; lia. }
    lia.
  - destruct (_ <? 2 ^ 1024); [|done]. apply of_Z_inj in Hv. subst v.
    split; [exists q; lia|].
    apply orb_false_iff in Hup as [Hup _]. lia.
Qed.

Lemma digits_test_nonempty s : JS.digits_test s = true → s ≠ "".
Proof. by destruct s. Qed.

Lemma Number_digits `{engine : Engine} s :
  JS.digits_test s = true →
  JS.Number (Some (OStr s)) = JS.round_to_double (JS.digits_value s).
Proof.
  intros Hs. cbn. unfold JS.StringToNumber. rewrite Hs.
  by destruct s.
Qed.

Lemma parseUnixTime_digits `{engine : Engine} input optionName :
  input ≠ None →
  JS.digits_test (JS.String_ input) = true →
  parseUnixTime input optionName =
    Ok (Some (JS.round_to_double (JS.digits_value (JS.String_ input)))).
Proof.
  intros Hinput Hdigits. destruct input as [[|s]|]; [done| |done].
  cbn in Hdigits. unfold parseUnixTime. cbn [JS.String_].
  rewrite Hdigits, Number_digits by done. by destruct s.
Qed.

Lemma parseUnixTime_other `{engine : Engine} input optionName :
  input ≠ None → input ≠ Some (OStr "") →
  JS.digits_test (JS.String_ input) = false →
  parseUnixTime input optionName =
    match JS.Date_parse (JS.String_ input) with
    | Some ms => Ok (Some (JS.of_Z (ms / 1000)))
    | None =>
        Throw (Error ("Invalid " +:+ optionName +:+ ": " +:+ JS.String_ input))
    end.
Proof.
  intros Hundef Hempty Hdigits. unfold parseUnixTime.
  destruct input as [[|s]|]; [by rewrite Hdigits| |done].
  destruct s; [done|]. by rewrite Hdigits.
Qed.

(** C8, as the code has it.  The time parser returns no constraint for an
    absent or empty expression; for a run of decimal digits the double
    nearest to the number they spell, which is that number itself up to
    [2^53]; for any other string that [Date.parse] reads, its time in
    milliseconds divided by 1000 and rounded down; and it throws, with the
    option name and the expression in the message, exactly when such a string
    is not read by [Date.parse]. *)
Theorem parseUnixTime_cases `{engine : Engine} (input : jsval)
    (optionName : string) :
  let text := JS.String_ input in
  (input = None ∨ input = Some (OStr "") →
     parseUnixTime input optionName = Ok None) ∧
  (input ≠ None → JS.digits_test text = true →
     parseUnixTime input optionName =
       Ok (Some (JS.round_to_double (JS.digits_value text))) ∧
     (JS.digits_value text ≤ 2 ^ 53 →
        parseUnixTime input optionName =
          Ok (Some (JS.of_Z (JS.digits_value text))))) ∧
  (∀ ms, input ≠ None → input ≠ Some (OStr "") →
     JS.digits_test text = false → JS.Date_parse text = Some ms →
     parseUnixTime input optionName = Ok (Some (JS.of_Z (ms / 1000))) ∧
     1000 * (ms / 1000) ≤ ms < 1000 * (ms / 1000) + 1000) ∧
  (∀ e, parseUnixTime input optionName = Throw e ↔
     input ≠ None ∧ input ≠ Some (OStr "") ∧
     JS.digits_test text = false ∧ JS.Date_parse text = None ∧
     e = Error ("Invalid " +:+ optionName +:+ ": " +:+ text)) ∧
  parseUnixTime (Some (OStr "1700000000")) optionName =
    Ok (Some (JS.of_Z 1700000000)) ∧
  parseUnixTime (Some (OStr "2024-01-01")) optionName =
    Ok (Some (JS.of_Z 1704067200)) ∧
  JS.toISOString (1704067200 * 1000) = Ok "2024-01-01T00:00:00.000Z".
Proof.
  intros text. repeat apply conj.
  - by intros [-> | ->].
  - intros Hinput Hdigits. split.
    + by apply parseUnixTime_digits.
    + intros Hsmall. rewrite parseUnixTime_digits by done.
      by rewrite round_to_double_exact.
  - intros ms Hundef Hempty Hdigits Hparse.
    rewrite parseUnixTime_other by done. fold text. rewrite Hparse.
    split; [done|]. pose proof (Z.div_mod ms 1000).
    pose proof (Z.mod_pos_bound ms 1000). lia.
  - intros e. split.
    + intros Hthrow.
      assert (Hundef : input ≠ None) by (by intros ->).
      assert (Hempty : input ≠ Some (OStr "")) by (by intros ->).
      destruct (JS.digits_test text) eqn:Hdigits.
      { by rewrite parseUnixTime_digits in Hthrow. }
      rewrite parseUnixTime_other in Hthrow by done. fold text in Hthrow.
      destruct (JS.Date_parse text); [done|]. by injection Hthrow as <-.
    + intros (Hundef & Hempty & Hdigits & Hparse & ->).
      rewrite parseUnixTime_other by done. fold text. by rewrite Hparse.
  - reflexivity.
  - reflexivity.
  - reflexivity.
Qed.

Lemma parseUnixTime_cases_witness :
  parseUnixTime (engine := strict_engine) (Some (OStr "1999-12-31")) "--until"
    = Ok (Some (JS.of_Z 946598400)) ∧
  parseUnixTime (engine := strict_engine) (Some (OStr "next week")) "--until"
    = Throw (Error "Invalid --until: next week").
Proof.
  split.
  - refine (proj1 (proj1 (proj2 (proj2
              (parseUnixTime_cases (engine := strict_engine)
                 (Some (OStr "1999-12-31")) "--until")))
              946598400000 _ _ _ _)); done.
  - refine (proj2 (proj1 (proj2 (proj2 (proj2
              (parseUnixTime_cases (engine := strict_engine)
                 (Some (OStr "next week")) "--until")))) _) _).
    by repeat split.
Defined.

(** C8 as stated fails on a run of digits beyond [2^53]: [Number] yields
    the nearest double, here the even neighbour below. *)
Lemma parseUnixTime_rounds_digits :
  JS.digits_test "9007199254740993" = true ∧
  JS.digits_value "9007199254740993" = 9007199254740993 ∧
  parseUnixTime (engine := strict_engine)
    (Some (OStr "9007199254740993")) "--since"
    = Ok (Some (JS.of_Z 9007199254740992)) ∧
  parseUnixTime (engine := strict_engine)
    (Some (OStr "9007199254740993")) "--since"
    ≠ Ok (Some (JS.of_Z 9007199254740993)).
Proof.
  assert (parseUnixTime (engine := strict_engine)
            (Some (OStr "9007199254740993")) "--since"
          = Ok (Some (JS.of_Z 9007199254740992))) as Hparse
    by (vm_compute; reflexivity).
  split; [vm_compute; reflexivity|].
  split; [vm_compute; reflexivity|].
  split; [exact Hparse|].
  rewrite Hparse. intros [=].
Qed.

(** Rounding down is not truncation before the epoch: half a second before
    it, the parser answers [-1]. *)
Lemma parseUnixTime_floors :
  parseUnixTime (engine := half_second_engine)
    (Some (OStr "1969-12-31T23:59:59.500Z")) "--since"
    = Ok (Some (JS.of_Z (-1))) ∧
  Z.quot (-500) 1000 = 0.
Proof. split; vm_compute; reflexivity. Qed.

(** ** [normalizeReadMessage] *)

Lemma str_or_empty s : JS.str_or s "" = s.
Proof. unfold JS.str_or. by destruct (String.eqb_spec s "") as [->|]. Qed.

Lemma num_or_zero n : JS.num_or n 0 = n.
Proof. unfold JS.num_or. by destruct (Z.eqb_spec n 0) as [->|]. Qed.

(** [toISOString] throws exactly on the time values that no date holds. *)
Lemma toISOString_returns tv :
  (∃ iso, JS.toISOString tv = Ok iso) ↔ - JS.maxTime ≤ tv ≤ JS.maxTime.
Proof.
  unfold JS.toISOString.
  destruct (Z.ltb_spec tv (- JS.maxTime)), (Z.ltb_spec JS.maxTime tv);
    cbn [orb]; split; try lia; try (by intros [? ?]); eauto.
Qed.

(** What a successful normalisation returns. *)
Lemma normalizeReadMessage_inv room raw strip m :
  normalizeReadMessage room raw strip = Ok m →
  ∃ iso,
    m = {| roomId := JS.String_ room;
           messageId := Raw.message_id raw;
           sendTimeUnix := Raw.send_time raw;
           sendTimeIso := iso;
           accountId := Raw.account raw ≫= Raw.account_id;
           accountName := Raw.account raw ≫= Raw.name;
           body := if strip then stripCommonChatworkTags (Raw.body raw)
                   else Raw.body raw;
           rawBody := Raw.body raw |} ∧
    (if Raw.send_time raw =? 0 then iso = None
     else ∃ text, JS.toISOString (Raw.send_time raw * 1000) = Ok text ∧
                  iso = Some text).
Proof.
  unfold normalizeReadMessage. rewrite !str_or_empty, num_or_zero.
  destruct (Raw.send_time raw =? 0) eqn:Hzero; cbn.
  - intros [= <-]. by exists None.
  - destruct (JS.toISOString (Raw.send_time raw * 1000)) as [text|e]; cbn;
      [|done].
    intros [= <-]. exists (Some text). eauto.
Qed.

(** Normalisation fails only when the send time is beyond the range of
    dates, and the strip flag has no part in that. *)
Lemma normalizeReadMessage_returns room raw strip :
  (∃ m, normalizeReadMessage room raw strip = Ok m) ↔
  - JS.maxTime ≤ Raw.send_time raw * 1000 ≤ JS.maxTime.
Proof.
  unfold normalizeReadMessage. rewrite num_or_zero.
  destruct (Z.eqb_spec (Raw.send_time raw) 0) as [Hz|Hz]; cbn.
  - rewrite Hz. split; [intros _; by vm_compute|eauto].
  - rewrite <- toISOString_returns.
    destruct (JS.toISOString (Raw.send_time raw * 1000)) as [text|e]; cbn.
    + split; eauto.
    + split; by intros [? ?].
Qed.

(** C7.  In a normalised message [rawBody] is the raw record's body as it
    came; without the strip flag [body] is the same string, and with it
    [body] is [rawBody] stripped, so that [body] is determined by [rawBody]
    and the flag.  Normalising the same record with the other flag value
    succeeds as well and differs in no field but [body]. *)
Theorem normalizeReadMessage_body (room : jsval) (raw : Raw.Message)
    (strip : bool) (m : CanonicalMessage) :
  normalizeReadMessage room raw strip = Ok m →
  rawBody m = Raw.body raw ∧
  (strip = false → body m = rawBody m) ∧
  body m = (if strip then stripCommonChatworkTags (rawBody m) else rawBody m) ∧
  (∀ room' raw' m',
     normalizeReadMessage room' raw' strip = Ok m' →
     rawBody m' = rawBody m → body m' = body m) ∧
  (∃ m', normalizeReadMessage room raw (negb strip) = Ok m' ∧
     roomId m' = roomId m ∧ messageId m' = messageId m ∧
     sendTimeUnix m' = sendTimeUnix m ∧ sendTimeIso m' = sendTimeIso m ∧
     accountId m' = accountId m ∧ accountName m' = accountName m ∧
     rawBody m' = rawBody m).
Proof.
  intros Hm. pose proof Hm as (iso & -> & Hiso)%normalizeReadMessage_inv.
  cbn. split; [done|]. split; [by intros ->|]. split; [done|]. split.
  - intros room' raw' m' (iso' & -> & _)%normalizeReadMessage_inv. cbn.
    by intros ->.
  - destruct (proj2 (normalizeReadMessage_returns room raw (negb strip)))
      as [m' Hm'].
    { apply (normalizeReadMessage_returns room raw strip). eauto. }
    exists m'. split; [done|].
    apply normalizeReadMessage_inv in Hm' as (iso' & -> & Hiso'). cbn.
    repeat split.
    destruct (Raw.send_time raw =? 0); [congruence|].
    destruct Hiso as (text & Htext & ->), Hiso' as (text' & Htext' & ->).
    congruence.
Qed.

Lemma normalizeReadMessage_body_witness :
  normalizeReadMessage (Some (OStr "42")) example_raw true
    = Ok example_canonical ∧
  rawBody example_canonical = "[To:7] hello [info]there[/info] " ∧
  body example_canonical = "hello there".
Proof.
  assert (Hm : normalizeReadMessage (Some (OStr "42")) example_raw true
               = Ok example_canonical) by (vm_compute; reflexivity).
  split; [exact Hm|].
  split.
  - exact (proj1 (normalizeReadMessage_body _ _ _ _ Hm)).
  - reflexivity.
Defined.

(** C9, as the code has it.  In a normalised message [sendTimeIso] is null
    exactly when [sendTimeUnix] is 0, and otherwise it is the ISO-8601
    rendering of that time; [sendTimeUnix] is the raw record's send time
    unchanged, hence not negative when that is not. *)
Theorem normalizeReadMessage_sendTime (room : jsval) (raw : Raw.Message)
    (strip : bool) (m : CanonicalMessage) :
  normalizeReadMessage room raw strip = Ok m →
  (sendTimeIso m = None ↔ sendTimeUnix m = 0) ∧
  (sendTimeUnix m ≠ 0 →
     ∃ text, JS.toISOString (sendTimeUnix m * 1000) = Ok text ∧
             sendTimeIso m = Some text) ∧
  sendTimeUnix m = Raw.send_time raw ∧
  (0 ≤ Raw.send_time raw → 0 ≤ sendTimeUnix m).
Proof.
  intros (iso & -> & Hiso)%normalizeReadMessage_inv. cbn.
  destruct (Z.eqb_spec (Raw.send_time raw) 0) as [Hz|Hz].
  - subst iso. by repeat split.
  - destruct Hiso as (text & Htext & ->). repeat split; try done.
    intros _. eauto.
Qed.

Lemma normalizeReadMessage_sendTime_witness :
  sendTimeIso example_canonical = Some "2023-11-14T22:13:20.000Z" ∧
  0 ≤ sendTimeUnix example_canonical.
Proof.
  assert (Hm : normalizeReadMessage (Some (OStr "42")) example_raw true
               = Ok example_canonical) by (vm_compute; reflexivity).
  pose proof (normalizeReadMessage_sendTime _ _ _ _ Hm)
    as (_ & Hiso & _ & Hsign).
  split.
  - destruct (Hiso ltac:(discriminate)) as (text & Htext & ->).
    f_equal. vm_compute in Htext. by injection Htext.
  - apply Hsign. vm_compute. discriminate.
Defined.

(** C9 as stated fails on a record whose send time lies before 1970: the
    normaliser passes it on, and [sendTimeUnix] is negative. *)
Lemma sendTimeUnix_negative :
  ∃ m,
    normalizeReadMessage (Some (OStr "42"))
      {| Raw.message_id := "5"; Raw.account := None; Raw.body := "early";
         Raw.send_time := -1 |} false = Ok m ∧
    sendTimeUnix m = -1 ∧
    sendTimeIso m = Some "1969-12-31T23:59:59.000Z" ∧
    ¬ 0 ≤ sendTimeUnix m.
Proof.
  eexists. split; [vm_compute; reflexivity|]. cbn. repeat split. lia.
Qed.

(** ** [stripCommonChatworkTags] *)

Lemma remove_none (m : JS.matcher) s :
  (∀ c rest, c ≠ "["%char → m (String c rest) = None) →
  occurs "[" s = false →
  JS.remove_all m s = s.
Proof.
  intros Hm. unfold JS.remove_all.
  induction s as [|c s IH]; [done|]. cbn.
  intros [Hc Hs]%orb_false_iff.
  rewrite Hm by (intros ->; by rewrite Ascii.eqb_refl in Hc).
  by rewrite IH.
Qed.

Lemma lit_bracket p c rest :
  c ≠ "["%char → JS.lit (String "[" p) (String c rest) = None.
Proof.
  intros Hc. cbn [JS.lit].
  destruct (Ascii.eqb_spec "[" c); [congruence|done].
Qed.

(** Text without an opening bracket holds no tag: stripping only trims it. *)
Lemma stripCommonChatworkTags_plain s :
  occurs "[" s = false → stripCommonChatworkTags s = JS.trim s.
Proof.
  intros Hs. unfold stripCommonChatworkTags. rewrite str_or_empty.
  rewrite (remove_none re_to), (remove_none re_rp), (remove_none re_block);
    try done.
  - intros c rest Hc. unfold re_block.
    cbn [fmap list_fmap JS.alt]. by rewrite !lit_bracket.
  - intros c rest Hc. unfold re_rp, JS.seq.
    by rewrite lit_bracket.
  - intros c rest Hc. unfold re_to, JS.seq.
    by rewrite lit_bracket.
Qed.

(** ** [buildChatworkBody] *)

Lemma truthy_addressees options :
  JS.truthy (options !! "to") = true →
  JS.String_ (options !! "to") = addressees options.
Proof. unfold addressees. by destruct (options !! "to"). Qed.

Lemma falsy_addressees options :
  JS.truthy (options !! "to") = false → addressees options = "".
Proof.
  unfold addressees. destruct (options !! "to") as [[|s]|]; cbn; try done.
  by destruct (String.eqb_spec s "").
Qed.

Lemma nonempty_spec s : nonempty s = true ↔ s ≠ "".
Proof. unfold nonempty. by destruct (String.eqb_spec s ""). Qed.

(** The ids that the [--to] text contributes: its pieces between commas,
    trimmed, the empty ones left out. *)
Lemma to_ids_of_entries (entries : list string) :
  Forall (λ e, occurs "," e = false) entries →
  List.filter nonempty
    (JS.trim <$> JS.split "," (JS.join "," entries)) =
  JS.trim <$> List.filter (λ e, nonempty (JS.trim e)) entries.
Proof.
  intros Hfree. destruct entries as [|e entries]; [done|].
  rewrite split_join by done.
  generalize (e :: entries). clear. intros l.
  induction l as [|x l IH]; [done|]. cbn.
  destruct (nonempty (JS.trim x)); cbn; by rewrite IH.
Qed.

Lemma buildChatworkBody_throws room text options :
  JS.truthy (options !! "reply-account") ≠
    JS.truthy (options !! "reply-message") →
  buildChatworkBody room text options = Throw reply_pair_error.
Proof.
  unfold buildChatworkBody.
  by destruct (JS.truthy (options !! "reply-account")),
       (JS.truthy (options !! "reply-message")).
Qed.

Lemma buildChatworkBody_returns room text options :
  JS.truthy (options !! "reply-account") =
    JS.truthy (options !! "reply-message") →
  ∃ body, buildChatworkBody room text options = Ok body.
Proof.
  unfold buildChatworkBody.
  destruct (JS.truthy (options !! "reply-account")),
    (JS.truthy (options !! "reply-message")); try done; intros _; eauto.
Qed.

(** C6.  Composition fails, with the error that names [--reply-account] and
    [--reply-message] as belonging together, exactly when one of the two is
    supplied and the other is not; otherwise it yields a body.  The composer
    takes no client, and [runWrite], the only caller, has not reached its
    request when the failure occurs: it ends with the same error without
    awaiting anything. *)
Theorem reply_pair_validation (room : jsval) (text : string)
    (options : gmap string optval) :
  let account := JS.truthy (options !! "reply-account") in
  let message := JS.truthy (options !! "reply-message") in
  reply_pair_error = Error "Use --reply-account and --reply-message together." ∧
  (buildChatworkBody room text options = Throw reply_pair_error ↔
     account ≠ message) ∧
  ((∃ body, buildChatworkBody room text options = Ok body) ↔
     account = message) ∧
  (∀ e, buildChatworkBody room text options = Throw e → e = reply_pair_error) ∧
  (∀ input,
     JS.truthy (options !! "room") = true →
     resolveWriteMessage options input ≠ "" →
     account ≠ message →
     runWrite options input = Return (Throw reply_pair_error)).
Proof.
  intros account message. split; [done|].
  pose proof (buildChatworkBody_throws room text options) as Hfail.
  pose proof (buildChatworkBody_returns room text options) as Hok.
  fold account message in Hfail, Hok.
  assert (Hcases : account = message ∨ account ≠ message).
  { destruct account, message; auto. }
  split; [|split; [|split]].
  - split; [|done]. intros Hthrow. destruct Hcases as [Heq|]; [|done].
    destruct (Hok Heq) as [body Hbody]. congruence.
  - split; [|done]. intros [body Hbody]. destruct Hcases as [|Hne]; [done|].
    rewrite (Hfail Hne) in Hbody. done.
  - intros e He. destruct Hcases as [Heq|Hne].
    + destruct (Hok Heq) as [body Hbody]. congruence.
    + rewrite (Hfail Hne) in He. congruence.
  - intros input Hroom Htext Hne. unfold runWrite.
    rewrite Hroom. cbn [negb].
    apply nonempty_spec in Htext. rewrite Htext. cbn [negb].
    by rewrite buildChatworkBody_throws.
Qed.

Lemma reply_pair_validation_witness :
  runWrite {[ "room" := OStr "42"; "message" := OStr "hello";
              "reply-account" := OStr "7" ]}
    {| file_text := ""; stdin_text := None |}
  = Return (Throw reply_pair_error).
Proof.
  refine (proj2 (proj2 (proj2 (proj2
            (reply_pair_validation (Some (OStr "42")) "hello" _)))) _ _ _ _).
  - reflexivity.
  - vm_compute. discriminate.
  - vm_compute. discriminate.
Defined.

(** C5.  When the [--to] text is the entries [entries] separated by commas
    and the reply options are supplied both or neither, the body consists of
    these lines: a line [[To:id]] for each entry that is not blank, where [id]
    is the entry trimmed, in the order of the entries and with repetitions;
    then, exactly when the reply options are supplied, the one line
    [[rp aid=ACCOUNT to=ROOM-MESSAGE]]; then the message text.  For the text
    ["1,2, 3"] the lines in front are [[To:1]], [[To:2]], [[To:3]]. *)
Theorem buildChatworkBody_layout (room : jsval) (text : string)
    (options : gmap string optval) (entries : list string) :
  Forall (λ e, occurs "," e = false) entries →
  addressees options = JS.join "," entries →
  JS.truthy (options !! "reply-account") =
    JS.truthy (options !! "reply-message") →
  buildChatworkBody room text options =
    Ok (JS.join newline
          (((λ e, "[To:" +:+ JS.trim e +:+ "]") <$>
              List.filter (λ e, nonempty (JS.trim e)) entries) ++
           (if JS.truthy (options !! "reply-account")
            then ["[rp aid=" +:+ JS.String_ (options !! "reply-account") +:+
                  " to=" +:+ JS.String_ room +:+ "-" +:+
                  JS.String_ (options !! "reply-message") +:+ "]"]
            else []) ++
           [text])) ∧
  Forall (λ e, trimmed_of e (JS.trim e)) entries ∧
  buildChatworkBody room text {[ "to" := OStr "1,2, 3" ]} =
    Ok ("[To:1]" +:+ newline +:+ "[To:2]" +:+ newline +:+ "[To:3]" +:+
        newline +:+ text).
Proof.
  intros Hfree Hto Hpair. split; [|split].
  - unfold buildChatworkBody. rewrite <- Hpair.
    assert (Hlines :
      (if JS.truthy (options !! "to")
       then [] ++ ((λ id, "[To:" +:+ id +:+ "]") <$>
              List.filter nonempty
                (JS.trim <$> JS.split "," (JS.String_ (options !! "to"))))
       else []) =
      (λ e, "[To:" +:+ JS.trim e +:+ "]") <$>
        List.filter (λ e, nonempty (JS.trim e)) entries).
    { destruct (JS.truthy (options !! "to")) eqn:Htruthy.
      - rewrite truthy_addressees, Hto by done.
        rewrite to_ids_of_entries by done. cbn [app].
        by rewrite <- list_fmap_compose.
      - apply falsy_addressees in Htruthy. rewrite Htruthy in Hto.
        pose proof (to_ids_of_entries entries Hfree) as Hids.
        rewrite <- Hto in Hids. symmetry in Hids.
        apply fmap_nil_inv in Hids. by rewrite Hids. }
    rewrite Hlines.
    destruct (JS.truthy (options !! "reply-account")); cbn [andb orb negb].
    + by rewrite <- app_assoc.
    + done.
  - apply Forall_forall. intros e _. apply trim_spec.
  - reflexivity.
Qed.

Lemma buildChatworkBody_layout_witness :
  buildChatworkBody (Some (OStr "42")) "hello"
    {[ "to" := OStr " 7 ,,7, 8"; "reply-account" := OStr "5";
       "reply-message" := OStr "99" ]} =
  Ok ("[To:7]" +:+ newline +:+ "[To:7]" +:+ newline +:+ "[To:8]" +:+ newline +:+
      "[rp aid=5 to=42-99]" +:+ newline +:+ "hello").
Proof.
  refine (proj1 (buildChatworkBody_layout (Some (OStr "42")) "hello"
            {[ "to" := OStr " 7 ,,7, 8"; "reply-account" := OStr "5";
               "reply-message" := OStr "99" ]}
            [" 7 "; ""; "7"; " 8"] _ _ _)).
  - repeat constructor.
  - reflexivity.
  - reflexivity.
Defined.

(** ** Arrays: [filter], [sort], [slice], [map] *)

Lemma prefix_spec p s : String.prefix p s = true ↔ ∃ rest, s = p +:+ rest.
Proof.
  revert s. induction p as [|a p IH]; intros [|b s]; cbn.
  - split; [intros _; by exists ""|done].
  - split; [intros _; exists (String b s); reflexivity|done].
  - split; [done|]. by intros [? ?].
  - destruct (Ascii.ascii_dec a b) as [->|Hne].
    + rewrite IH. split; intros [rest Hrest]; exists rest.
      * by rewrite string_app_cons, <- Hrest.
      * rewrite string_app_cons in Hrest. by injection Hrest.
    + split; [done|]. intros [rest Hrest].
      rewrite string_app_cons in Hrest. by injection Hrest as <-.
Qed.

(** [includes] decides occurrence. *)
Lemma includes_spec s needle :
  JS.includes s needle = true ↔ substring needle s.
Proof.
  unfold substring. induction s as [|c s IH]; cbn [JS.includes].
  - rewrite orb_false_r, prefix_spec. split.
    + intros [rest Hrest]. exists "", rest. by rewrite string_app_nil.
    + intros (pre & post & Hs). destruct pre; [by exists post|done].
  - rewrite orb_true_iff, prefix_spec, IH. split.
    + intros [[rest Hrest] | (pre & post & Hs)].
      * exists "", rest. by rewrite string_app_nil.
      * exists (String c pre), post. by rewrite string_app_cons, <- Hs.
    + intros (pre & post & Hs). destruct pre as [|d pre].
      * left. by exists post.
      * right. rewrite string_app_cons in Hs. injection Hs as <- Hs.
        by exists pre, post.
Qed.

Lemma le_spec a b : JS.le a b = true ↔ num_le a b.
Proof.
  destruct a, b; cbn; try done. apply Qle_bool_iff.
Qed.

Lemma num_le_of_Z a b : num_le (JS.of_Z a) (JS.of_Z b) ↔ a ≤ b.
Proof. cbn. by rewrite <- Zle_Qle. Qed.

Lemma num_le_trans a b c : num_le a b → num_le b c → num_le a c.
Proof.
  destruct a, b, c; cbn; try done. apply Qle_trans.
Qed.

Lemma insert_by_perm {A} (cmp : A → A → Z) x l :
  Permutation (JS.insert_by cmp x l) (x :: l).
Proof.
  induction l as [|y l IH]; cbn; [done|].
  destruct (cmp x y <=? 0); [done|].
  rewrite IH. apply perm_swap.
Qed.

Lemma sort_perm {A} (cmp : A → A → Z) l : Permutation (JS.sort cmp l) l.
Proof.
  induction l as [|x l IH]; cbn; [done|].
  rewrite insert_by_perm. by constructor.
Qed.

Lemma insert_sorted x l :
  StronglySorted by_send_time l →
  StronglySorted by_send_time
    (JS.insert_by (λ a b, Raw.send_time a - Raw.send_time b) x l).
Proof.
  induction 1 as [|y l Hl IH Hy]; cbn.
  - repeat constructor.
  - destruct (Z.leb_spec (Raw.send_time x - Raw.send_time y) 0) as [Hle|Hgt].
    + constructor; [by constructor|].
      constructor; [unfold by_send_time; lia|].
      eapply Forall_impl; [exact Hy|]. unfold by_send_time. intros; lia.
    + constructor; [done|].
      rewrite insert_by_perm. constructor; [unfold by_send_time; lia|done].
Qed.

Lemma sort_stage_sorted msgs : StronglySorted by_send_time (sort_stage msgs).
Proof.
  induction msgs as [|x msgs IH]; cbn; [constructor|].
  by apply insert_sorted.
Qed.

Lemma sort_stage_perm msgs : Permutation (sort_stage msgs) msgs.
Proof. apply sort_perm. Qed.

(** The sort is stable: records with one send time keep their order. *)
Lemma sort_stage_stable t msgs :
  List.filter (λ m, Raw.send_time m =? t) (sort_stage msgs) =
  List.filter (λ m, Raw.send_time m =? t) msgs.
Proof.
  induction msgs as [|x msgs IH]; [done|].
  change (sort_stage (x :: msgs)) with
    (JS.insert_by (λ a b, Raw.send_time a - Raw.send_time b) x
       (sort_stage msgs)).
  cbn [List.filter]. rewrite <- IH. clear IH.
  induction (sort_stage msgs) as [|y l IHl]; [done|].
  cbn [JS.insert_by].
  destruct (Z.leb_spec (Raw.send_time x - Raw.send_time y) 0) as [Hle|Hgt];
    [done|].
  cbn [List.filter]. rewrite IHl.
  destruct (Z.eqb_spec (Raw.send_time y) t) as [Hyt|];
    destruct (Z.eqb_spec (Raw.send_time x) t) as [Hxt|]; try done.
  lia.
Qed.

(** The limit of [runRead] is a finite number between 1 and 100, and it is
    30 when [--limit] is absent or does not spell a finite number. *)
Lemma read_limit_range `{engine : Engine} options :
  ∃ q, read_limit options = Fin q ∧ (1 <= q)%Q ∧ (q <= 100)%Q.
Proof.
  unfold read_limit, parseIntSafe.
  assert (∃ q, (if JS.isFinite (JS.Number (options !! "limit"))
                then JS.Number (options !! "limit") else JS.of_Z 30) = Fin q)
    as [q ->].
  { destruct (JS.Number (options !! "limit")); cbn; eauto. }
  unfold JS.Math_min, JS.Math_max, JS.of_Z. cbn [JS.le].
  destruct (Qle_bool (inject_Z 100) q) eqn:Hhi; cbn [JS.le].
  - exists (inject_Z 100). by vm_compute.
  - assert (q < inject_Z 100)%Q as Hlt.
    { apply Qnot_le_lt. rewrite <- Qle_bool_iff. by rewrite Hhi. }
    destruct (Qle_bool (inject_Z 1) q) eqn:Hlo.
    + exists q. apply Qle_bool_iff in Hlo.
      split; [done|]. split; [done|]. by apply Qlt_le_weak.
    + exists (inject_Z 1). by vm_compute.
Qed.

Lemma read_limit_default `{engine : Engine} options :
  options !! "limit" = None → read_limit options = Fin (inject_Z 30).
Proof. intros Hnone. unfold read_limit, parseIntSafe. by rewrite Hnone. Qed.

Lemma digits_value_from_nonneg acc s :
  0 ≤ acc → JS.all_digits s = true → 0 ≤ JS.digits_value_from acc s.
Proof.
  revert acc. induction s as [|c s IH]; intros acc Hacc; [done|].
  cbn. intros [Hc Hs]%andb_true_iff. apply IH; [|done].
  unfold JS.is_digit in Hc. apply andb_true_iff in Hc as [Hc _]. lia.
Qed.

Lemma digits_value_nonneg s : JS.digits_test s = true → 0 ≤ JS.digits_value s.
Proof.
  intros [_ Hs]%andb_true_iff. by apply digits_value_from_nonneg.
Qed.

(** Below [2^1023] a natural number rounds to a double that is the number
    itself or at least [2^53]; from [2^1024] on it rounds to [Infinity]. *)
Lemma round_to_double_range n :
  0 ≤ n →
  (n < 2 ^ 1023 →
     ∃ v, JS.round_to_double n = JS.of_Z v ∧ (n < 2 ^ 53 → v = n) ∧
          (2 ^ 53 ≤ n → 2 ^ 53 ≤ v)) ∧
  (2 ^ 1024 ≤ n → JS.round_to_double n = PosInf).
Proof.
  intros Hn. unfold JS.round_to_double.
  destruct (Z.ltb_spec n (2 ^ 53)) as [Hsmall|Hbig].
  { split; [|lia]. intros _. exists n. split_and!; [done..|lia]. }
  assert (53 ≤ Z.log2 n) as Hlog by (apply Z.log2_le_pow2; lia).
  set (e := Z.log2 n - 52) in *.
  assert (0 < 2 ^ e) as Hulp by (apply Z.pow_pos_nonneg; lia).
  destruct (Z.log2_spec n ltac:(lia)) as [Hlow Hhigh].
  assert (2 ^ Z.log2 n = 2 ^ 52 * 2 ^ e) as Hsplit.
  { rewrite <- Z.pow_add_r by lia. f_equal. lia. }
  assert (2 ^ Z.succ (Z.log2 n) = 2 ^ 53 * 2 ^ e) as Hsplit'.
  { rewrite <- Z.pow_add_r by lia. f_equal. lia. }
  assert (2 ^ 52 ≤ n / 2 ^ e < 2 ^ 53) as Hq.
  { split.
    - apply Z.div_le_lower_bound; lia.
    - apply Z.div_lt_upper_bound; lia. }
  set (q := n / 2 ^ e) in *. cbv zeta.
  match goal with
  | |- context [if ?b then q + 1 else q] =>
      set (q' := if b then q + 1 else q);
      assert (q ≤ q' ≤ q + 1) as Hq' by (unfold q'; destruct b; lia)
  end.
  split.
  - intros Hfinite.
    assert (Z.log2 n < 1023) as Hlog' by (apply Z.log2_lt_pow2; lia).
    assert (2 ^ Z.succ (Z.log2 n) ≤ 2 ^ 1023) as Hle
      by (apply Z.pow_le_mono_r; lia).
    assert (2 ^ 1023 < 2 ^ 1024) as Hlt by (apply Z.pow_lt_mono_r; lia).
    destruct (Z.ltb_spec (q' * 2 ^ e) (2 ^ 1024)) as [_|Hover]; [|nia].
    exists (q' * 2 ^ e). split_and!; [done|lia|]. intros _.
    assert (2 ^ 53 ≤ 2 ^ Z.log2 n) by (apply Z.pow_le_mono_r; lia). nia.
  - intros Hhuge.
    assert (1024 ≤ Z.log2 n) as Hlog' by (apply Z.log2_le_pow2; lia).
    assert (2 ^ 1024 ≤ 2 ^ Z.log2 n) by (apply Z.pow_le_mono_r; lia).
    destruct (Z.ltb_spec (q' * 2 ^ e) (2 ^ 1024)) as [Hunder|_]; [nia|done].
Qed.

Lemma Math_min_of_Z a b :
  JS.Math_min (JS.of_Z a) (JS.of_Z b) = JS.of_Z (Z.min a b).
Proof.
  unfold JS.Math_min, JS.of_Z. cbn [JS.le].
  destruct (Qle_bool (inject_Z a) (inject_Z b)) eqn:Hle.
  - apply Qle_bool_iff in Hle. rewrite <- Zle_Qle in Hle.
    by rewrite Z.min_l.
  - assert (¬ a ≤ b) as Hgt.
    { rewrite Zle_Qle, <- Qle_bool_iff. by rewrite Hle. }
    rewrite Z.min_r by lia. done.
Qed.

Lemma Math_max_of_Z a b :
  JS.Math_max (JS.of_Z a) (JS.of_Z b) = JS.of_Z (Z.max a b).
Proof.
  unfold JS.Math_max, JS.of_Z. cbn [JS.le].
  destruct (Qle_bool (inject_Z a) (inject_Z b)) eqn:Hle.
  - apply Qle_bool_iff in Hle. rewrite <- Zle_Qle in Hle.
    by rewrite Z.max_r.
  - assert (¬ a ≤ b) as Hgt.
    { rewrite Zle_Qle, <- Qle_bool_iff. by rewrite Hle. }
    rewrite Z.max_l by lia. done.
Qed.

(** The limit of a numeral below [2^1023] is its value brought into the
    range from 1 to 100. *)
Lemma read_limit_digits `{engine : Engine} options s :
  options !! "limit" = Some (OStr s) →
  JS.digits_test s = true →
  JS.digits_value s < 2 ^ 1023 →
  read_limit options = JS.of_Z (Z.max 1 (Z.min 100 (JS.digits_value s))).
Proof.
  intros Hlimit Hdigits Hfinite. unfold read_limit, parseIntSafe.
  rewrite Hlimit, Number_digits by done.
  pose proof (digits_value_nonneg s Hdigits) as Hn.
  destruct (proj1 (round_to_double_range _ Hn) Hfinite)
    as (v & -> & Hsmall & Hbig).
  cbn [JS.isFinite JS.of_Z]. change (Fin (inject_Z v)) with (JS.of_Z v).
  rewrite Math_min_of_Z, Math_max_of_Z. f_equal.
  destruct (Z.lt_ge_cases (JS.digits_value s) (2 ^ 53)) as [Hlt|Hge].
  - by rewrite (Hsmall Hlt).
  - specialize (Hbig Hge). lia.
Qed.

(** The limit as [Number] reads the option: a finite number is brought into
    the range from 1 to 100, anything else gives 30. *)
Lemma read_limit_Number `{engine : Engine} options :
  match JS.Number (options !! "limit") with
  | Fin q =>
      read_limit options =
        Fin (if Qle_bool 100 q then 100%Q
             else if Qle_bool 1 q then q else 1%Q)
  | _ => read_limit options = Fin 30%Q
  end.
Proof.
  unfold read_limit, parseIntSafe.
  destruct (JS.Number (options !! "limit")) as [| | |q]; try reflexivity.
  cbn [JS.isFinite]. unfold JS.Math_min, JS.Math_max, JS.of_Z.
  cbn [JS.le]. change (inject_Z 100) with 100%Q. change (inject_Z 1) with 1%Q.
  destruct (Qle_bool 100 q) eqn:Hhi; cbn [JS.le]; [reflexivity|].
  by destruct (Qle_bool 1 q).
Qed.

(** [slice(-limit)] keeps the last [⌊limit⌋] elements, or all there are. *)
Lemma slice_neg_limit {A} q (l : list A) :
  (1 <= q)%Q →
  JS.slice (JS.neg (Fin q)) l =
    drop (length l - Z.to_nat (Qfloor q)) l ∧
  1 ≤ Qfloor q.
Proof.
  intros Hq.
  assert (1 ≤ Qfloor q) as Hfloor.
  { change 1 with (Qfloor (inject_Z 1)). by apply Qfloor_resp_le. }
  split; [|done].
  unfold JS.slice, JS.slice_start. cbn [JS.neg].
  assert (JS.Qtrunc (- q) = - Qfloor q) as ->.
  { unfold JS.Qtrunc.
    destruct (Qle_bool 0 (- q)) eqn:Hsign.
    - apply Qle_bool_iff in Hsign. lra.
    - unfold Qceiling. f_equal. apply Qfloor_comp. apply Qopp_involutive. }
  destruct (Z.ltb_spec (- Qfloor q) 0); [|lia].
  f_equal. lia.
Qed.

(** [map] with a callback that may throw. *)
Lemma mapM_cons {A B} (f : A → result B) x l :
  mapM f (x :: l) =
    match f x with
    | Ok y => match mapM f l with Ok ys => Ok (y :: ys) | Throw e => Throw e end
    | Throw e => Throw e
    end.
Proof. reflexivity. Qed.

Lemma mapM_Ok {A B} (f : A → result B) l out :
  mapM f l = Ok out ↔ Forall2 (λ x y, f x = Ok y) l out.
Proof.
  revert out. induction l as [|x l IH]; intros out.
  - split.
    + intros [= <-]. constructor.
    + by inversion 1.
  - rewrite mapM_cons. split.
    + destruct (f x) as [y|e] eqn:Hx; [|done].
      destruct (mapM f l) as [ys|e] eqn:Hl; [|done].
      intros [= <-]. constructor; [done|]. by apply IH.
    + inversion 1 as [|? y ? ys Hy Hys]; subst.
      apply IH in Hys. by rewrite Hy, Hys.
Qed.

(** ** [runRead] *)

(** When [runRead] reaches its request, the room was given and both bounds
    were read; the request is for the messages of that room, and what follows
    the response is the chain of stages. *)
Lemma runRead_await `{engine : Engine} options req k :
  runRead options = Await req k →
  ∃ since until,
    JS.truthy (options !! "room") = true ∧
    parseUnixTime (options !! "since") "--since" = Ok since ∧
    parseUnixTime (options !! "until") "--until" = Ok until ∧
    req = GetRoomMessages (options !! "room")
            (parseBool01 (options !! "force") 1) ∧
    ∀ raw,
      k raw =
        mapM (λ msg, normalizeReadMessage (options !! "room") msg
                       (JS.truthy (options !! "strip-tags")))
          (read_kept options since until raw).
Proof.
  unfold runRead.
  destruct (JS.truthy (options !! "room")); cbn [negb]; [|done].
  destruct (parseUnixTime (options !! "since") "--since") as [since|];
    cbn [attempt]; [|done].
  destruct (parseUnixTime (options !! "until") "--until") as [until|];
    cbn [attempt]; [|done].
  intros [= <- <-]. exists since, until. repeat split.
  intros raw. by destruct raw.
Qed.

(** Conversely, with the room given and both bounds read, the request is
    made. *)
Lemma runRead_requests `{engine : Engine} options since until :
  JS.truthy (options !! "room") = true →
  parseUnixTime (options !! "since") "--since" = Ok since →
  parseUnixTime (options !! "until") "--until" = Ok until →
  ∃ k, runRead options =
         Await (GetRoomMessages (options !! "room")
                  (parseBool01 (options !! "force") 1)) k.
Proof.
  intros Hroom Hsince Huntil. unfold runRead.
  rewrite Hroom, Hsince, Huntil. cbn. eauto.
Qed.

Lemma run_runRead `{engine : Engine} client options out :
  run client (runRead options) = Ok out ↔
  ∃ since until raw,
    JS.truthy (options !! "room") = true ∧
    parseUnixTime (options !! "since") "--since" = Ok since ∧
    parseUnixTime (options !! "until") "--until" = Ok until ∧
    client (GetRoomMessages (options !! "room")
              (parseBool01 (options !! "force") 1)) = Ok raw ∧
    Forall2 (λ msg m, normalizeReadMessage (options !! "room") msg
                        (JS.truthy (options !! "strip-tags")) = Ok m)
      (read_kept options since until raw) out.
Proof.
  split.
  - destruct (runRead options) as [r|req k] eqn:Hrun.
    + unfold runRead in Hrun.
      destruct (JS.truthy (options !! "room")); cbn [negb] in Hrun;
        [|by injection Hrun as <-].
      destruct (parseUnixTime (options !! "since") "--since");
        cbn [attempt] in Hrun; [|by injection Hrun as <-].
      destruct (parseUnixTime (options !! "until") "--until");
        cbn [attempt] in Hrun; [|by injection Hrun as <-].
      done.
    + apply runRead_await in Hrun
        as (since & until & Hroom & Hsince & Huntil & -> & Hk).
      cbn [run]. destruct (client _) as [raw|e] eqn:Hclient; [|done].
      cbn. rewrite Hk, mapM_Ok. intros Hout.
      by exists since, until, raw.
  - intros (since & until & raw & Hroom & Hsince & Huntil & Hclient & Hout).
    destruct (runRead_requests options since until) as [k Hrun]; [done..|].
    rewrite Hrun. cbn [run]. rewrite Hclient. cbn.
    apply runRead_await in Hrun
      as (since' & until' & _ & Hsince' & Huntil' & _ & Hk).
    rewrite Hk. apply mapM_Ok.
    rewrite Hsince in Hsince'. rewrite Huntil in Huntil'.
    by injection Hsince' as <-; injection Huntil' as <-.
Qed.

Lemma elements_non_array raw : isArray raw = false → elements raw = [].
Proof. by destruct raw. Qed.

(** C10.  When [runRead] has made its request and the response is not an
    array (null, a text, an object, ...), what follows raises nothing and
    yields the empty sequence; so does the whole run against any client
    that answers the request with such a payload. *)
Theorem runRead_non_array `{engine : Engine} (options : gmap string optval)
    (req : request) (k : payload → result (list CanonicalMessage))
    (raw : payload) :
  runRead options = Await req k →
  isArray raw = false →
  k raw = Ok [] ∧
  (∀ client : Client,
     client req = Ok raw → run client (runRead options) = Ok []) ∧
  isArray PNull = false ∧
  (∀ text, isArray (PText text) = false) ∧
  (∀ keys, isArray (PObject keys) = false).
Proof.
  intros Hrun Hraw.
  pose proof Hrun as (since & until & _ & _ & _ & _ & Hk)%runRead_await.
  assert (k raw = Ok []) as Hempty.
  { rewrite Hk. unfold read_kept.
    rewrite (elements_non_array raw Hraw).
    unfold JS.slice. cbn [window_stage contains_stage sort_stage
                          List.filter JS.sort foldr].
    by rewrite drop_nil. }
  split; [done|]. split; [|done].
  intros client Hclient. rewrite Hrun. cbn [run]. rewrite Hclient. done.
Qed.

Lemma runRead_non_array_witness :
  run (λ _, Ok (PText "<html>ok</html>"))
    (runRead (engine := strict_engine)
       {[ "room" := OStr "42"; "since" := OStr "2024-01-01" ]}) = Ok [].
Proof.
  destruct (runRead_requests (engine := strict_engine)
              {[ "room" := OStr "42"; "since" := OStr "2024-01-01" ]}
              (Some (JS.of_Z 1704067200)) None) as [k Hrun];
    [reflexivity..|].
  refine (proj1 (proj2 (runRead_non_array _ _ _ (PText "<html>ok</html>")
                          Hrun _)) _ _); reflexivity.
Defined.

(** *** The stages *)

Lemma elem_of_filter {A} (f : A → bool) (l : list A) x :
  x ∈ List.filter f l ↔ x ∈ l ∧ f x = true.
Proof. rewrite !list_elem_of_In. apply filter_In. Qed.

Lemma filter_agree {A} (f g : A → bool) (l : list A) :
  (∀ x, f x = true ↔ g x = true) → List.filter f l = List.filter g l.
Proof.
  intros Hfg. apply filter_ext. intros x.
  specialize (Hfg x). destruct (f x), (g x); intuition congruence.
Qed.

Lemma filter_filter {A} (f g : A → bool) (l : list A) :
  List.filter f (List.filter g l) = List.filter (λ x, g x && f x) l.
Proof.
  induction l as [|x l IH]; [done|]. cbn.
  destruct (g x); cbn; [|done]. by rewrite IH.
Qed.

(** The test of the two send-time filters, in one. *)
Lemma window_test since until t :
  match since with Some s => JS.ge (JS.of_Z t) s | None => true end &&
  match until with Some u => JS.le (JS.of_Z t) u | None => true end = true ↔
  within since until t.
Proof.
  unfold within, JS.ge. rewrite andb_true_iff.
  destruct since as [s|], until as [u|]; rewrite ?le_spec; split.
  all: try (by intros [Hs Hu]; split; intros ? [= <-]).
  all: try (intros [Hs Hu]; split; by eauto).
  all: try (by intros [Hs Hu]; split; intros ? [=]).
Qed.

Lemma window_stage_filter since until msgs :
  window_stage since until msgs =
  List.filter
    (λ msg,
       match since with
       | Some s => JS.ge (JS.of_Z (Raw.send_time msg)) s
       | None => true
       end &&
       match until with
       | Some u => JS.le (JS.of_Z (Raw.send_time msg)) u
       | None => true
       end)
    msgs.
Proof. unfold window_stage. by rewrite filter_filter. Qed.

Lemma elem_of_window_stage since until msgs msg :
  msg ∈ window_stage since until msgs ↔
  msg ∈ msgs ∧ within since until (Raw.send_time msg).
Proof.
  by rewrite window_stage_filter, elem_of_filter, window_test.
Qed.

Lemma window_stage_inverted since until msgs s u :
  since = Some s → until = Some u → ¬ num_le s u →
  window_stage since until msgs = [].
Proof.
  intros -> -> Hinverted.
  destruct (window_stage (Some s) (Some u) msgs) as [|msg rest] eqn:Hstage;
    [done|].
  assert (msg ∈ window_stage (Some s) (Some u) msgs) as Hin
    by (rewrite Hstage; constructor).
  apply elem_of_window_stage in Hin as [_ [Hs Hu]].
  destruct Hinverted. by eapply num_le_trans; [apply Hs|apply Hu].
Qed.

Lemma elem_of_contains_stage contains msgs msg :
  contains ≠ "" →
  msg ∈ contains_stage contains msgs ↔
  msg ∈ msgs ∧ substring contains (Raw.body msg).
Proof.
  intros Hcontains%nonempty_spec. unfold contains_stage.
  by rewrite elem_of_filter, Hcontains, str_or_empty, includes_spec.
Qed.

Lemma contains_stage_empty msgs : contains_stage "" msgs = msgs.
Proof.
  unfold contains_stage. cbn. induction msgs as [|x l IH]; [done|].
  cbn. by rewrite IH.
Qed.

Lemma elem_of_slice {A} start (l : list A) x : x ∈ JS.slice start l → x ∈ l.
Proof.
  unfold JS.slice. intros Hx. rewrite <- (take_drop (Z.to_nat
    (JS.slice_start start (Z.of_nat (length l)))) l).
  apply elem_of_app. by right.
Qed.

(** A record that [runRead] keeps has passed both filter stages. *)
Lemma elem_of_read_kept `{engine : Engine} options since until raw msg :
  msg ∈ read_kept options since until raw →
  msg ∈ contains_stage (read_contains options)
          (window_stage since until (elements raw)).
Proof.
  unfold read_kept. intros Hmsg%elem_of_slice.
  by rewrite <- (sort_stage_perm _).
Qed.

Lemma Forall2_Forall_r {A B} (R : A → B → Prop) (P : A → Prop) (Q : B → Prop)
    l k :
  Forall2 R l k → (∀ x y, x ∈ l → R x y → P x → Q y) →
  Forall P l → Forall Q k.
Proof.
  induction 1 as [|x y l k Hxy Hlk IH]; intros HR HP; [constructor|].
  apply Forall_cons in HP as [Hx Hl]. constructor.
  - eapply HR; [constructor|done..].
  - apply IH; [|done]. intros x' y' Hx'. apply HR. by constructor.
Qed.

Lemma read_contains_truthy options :
  JS.truthy (options !! "contains") = true →
  read_contains options = JS.String_ (options !! "contains") ∧
  read_contains options ≠ "".
Proof.
  intros Htruthy. unfold read_contains. rewrite Htruthy. split; [done|].
  destruct (options !! "contains") as [[|s]|]; cbn in *; [done| |done].
  by destruct (String.eqb_spec s "").
Qed.

(** C3.  With a substring filter, the body filter of [runRead] retains a
    record exactly when the filter text occurs in the record's raw body, as
    it is: upper and lower case differ, and whether tags are to be stripped
    has no part in it.  Every message that a run of [runRead] returns has
    the filter text in its [rawBody], also when its stripped [body] has
    lost it. *)
Theorem contains_stage_raw_body `{engine : Engine} (contains : string)
    (msgs : list Raw.Message) :
  contains ≠ "" →
  (∀ msg, msg ∈ contains_stage contains msgs ↔
          msg ∈ msgs ∧ substring contains (Raw.body msg)) ∧
  (∀ keep : Raw.Message → bool,
     (∀ msg, keep msg = true ↔ substring contains (Raw.body msg)) →
     contains_stage contains msgs = List.filter keep msgs) ∧
  (∀ (client : Client) options out,
     JS.truthy (options !! "contains") = true →
     JS.String_ (options !! "contains") = contains →
     run client (runRead options) = Ok out →
     Forall (λ m, substring contains (rawBody m)) out) ∧
  contains_stage "HELLO" [example_raw] = [] ∧
  contains_stage "hello" [example_raw] = [example_raw] ∧
  run (λ _, Ok (PArray [example_raw]))
    (runRead {[ "room" := OStr "42"; "contains" := OStr "[To:7]";
                "strip-tags" := OTrue ]}) = Ok [example_canonical] ∧
  ¬ substring "[To:7]" (body example_canonical).
Proof.
  intros Hcontains.
  split; [intros msg; by apply elem_of_contains_stage|].
  split.
  { intros keep Hkeep. unfold contains_stage. apply filter_agree.
    intros msg. apply nonempty_spec in Hcontains.
    by rewrite Hcontains, str_or_empty, includes_spec, Hkeep. }
  split.
  { intros client options out Htruthy Htext
      (since & until & raw & _ & _ & _ & _ & Hout)%run_runRead.
    apply read_contains_truthy in Htruthy as [Hread _].
    rewrite Htext in Hread.
    eapply (Forall2_Forall_r _ (λ _, True)); [exact Hout| |].
    - intros msg m Hmsg (iso & -> & _)%normalizeReadMessage_inv _. cbn.
      apply elem_of_read_kept in Hmsg. rewrite Hread in Hmsg.
      by apply elem_of_contains_stage in Hmsg as [_ ?].
    - by apply Forall_forall. }
  split; [by vm_compute|]. split; [by vm_compute|].
  split; [by vm_compute|].
  rewrite <- includes_spec. by vm_compute.
Qed.

Lemma contains_stage_raw_body_witness :
  Forall (λ m, substring "[To:7]" (rawBody m)) [example_canonical].
Proof.
  refine (proj1 (proj2 (proj2
            (contains_stage_raw_body (engine := strict_engine) "[To:7]" [] _)))
            (λ _, Ok (PArray [example_raw]))
            {[ "room" := OStr "42"; "contains" := OStr "[To:7]";
               "strip-tags" := OTrue ]} _ _ _ _).
  - discriminate.
  - reflexivity.
  - reflexivity.
  - vm_compute. reflexivity.
Defined.

Lemma Forall2_total {A B} (R : A → B → Prop) l :
  Forall (λ x, ∃ y, R x y) l → ∃ k, Forall2 R l k.
Proof.
  induction 1 as [|x l [y Hy] _ [k Hk]]; [by exists []|].
  exists (y :: k). by constructor.
Qed.

(** A run returns when the room is given, both bounds are read, the client
    answers, and the send times of the payload are within the range of
    dates. *)
Lemma runRead_returns `{engine : Engine} (client : Client) options since until
    raw :
  JS.truthy (options !! "room") = true →
  parseUnixTime (options !! "since") "--since" = Ok since →
  parseUnixTime (options !! "until") "--until" = Ok until →
  client (GetRoomMessages (options !! "room")
            (parseBool01 (options !! "force") 1)) = Ok raw →
  Forall (λ msg, - JS.maxTime ≤ Raw.send_time msg * 1000 ≤ JS.maxTime)
    (elements raw) →
  ∃ out, run client (runRead options) = Ok out.
Proof.
  intros Hroom Hsince Huntil Hclient Hrange.
  destruct (Forall2_total
              (λ msg m, normalizeReadMessage (options !! "room") msg
                          (JS.truthy (options !! "strip-tags")) = Ok m)
              (read_kept options since until raw)) as [out Hout].
  { apply Forall_forall. intros msg Hmsg%elem_of_read_kept.
    apply normalizeReadMessage_returns.
    rewrite Forall_forall in Hrange. apply Hrange.
    unfold contains_stage, window_stage in Hmsg.
    by apply elem_of_filter in Hmsg as [[[Hmsg _]%elem_of_filter _]
      %elem_of_filter _]. }
  exists out. apply run_runRead. by exists since, until, raw.
Qed.

(** What a successful run normalises is the tail of the sorted matches. *)
Lemma read_kept_tail `{engine : Engine} options since until raw :
  ∃ limit older,
    read_limit options = Fin limit ∧ (1 <= limit)%Q ∧ (limit <= 100)%Q ∧
    sort_stage
      (contains_stage (read_contains options)
         (window_stage since until (elements raw)))
      = older ++ read_kept options since until raw ∧
    length (read_kept options since until raw) =
      (Z.to_nat (Qfloor limit) `min` length (older ++
         read_kept options since until raw))%nat.
Proof.
  destruct (read_limit_range options) as (limit & Hlimit & Hlo & Hhi).
  unfold read_kept. rewrite Hlimit.
  set (sorted := sort_stage _).
  destruct (slice_neg_limit limit sorted Hlo) as [-> Hfloor].
  exists limit, (take (length sorted - Z.to_nat (Qfloor limit)) sorted).
  rewrite take_drop. repeat split; try done.
  rewrite length_drop. lia.
Qed.

Lemma Forall2_fmap_eq {A B C} (R : A → B → Prop) (f : A → C) (g : B → C) l k :
  Forall2 R l k → (∀ x y, R x y → f x = g y) → f <$> l = g <$> k.
Proof.
  induction 1 as [|x y l k Hxy Hlk IH]; intros Hfg; [done|].
  cbn. by rewrite (Hfg x y Hxy), IH.
Qed.

(** With no more matching records than the limit allows, all are kept. *)
Lemma read_kept_all `{engine : Engine} options since until raw limit :
  read_limit options = Fin limit →
  (length (contains_stage (read_contains options)
             (window_stage since until (elements raw)))
   ≤ Z.to_nat (Qfloor limit))%nat →
  read_kept options since until raw =
    sort_stage (contains_stage (read_contains options)
                  (window_stage since until (elements raw))).
Proof.
  intros Hlimit Hlength.
  destruct (read_limit_range options) as (q & Hq & Hlo & _).
  assert (q = limit) as -> by congruence.
  unfold read_kept. rewrite Hlimit.
  destruct (slice_neg_limit limit
              (sort_stage (contains_stage (read_contains options)
                 (window_stage since until (elements raw)))) Hlo) as [-> _].
  rewrite (Permutation_length (sort_stage_perm _)).
  replace (_ - _)%nat with 0%nat by lia. done.
Qed.

(** A matching record is kept unless the limit cuts it off: then as many
    records are kept as the limit allows, none of them older. *)
Lemma read_kept_complete `{engine : Engine} options since until raw limit msg :
  read_limit options = Fin limit →
  msg ∈ contains_stage (read_contains options)
          (window_stage since until (elements raw)) →
  msg ∈ read_kept options since until raw ∨
  (length (read_kept options since until raw) = Z.to_nat (Qfloor limit) ∧
   Forall (λ k, Raw.send_time msg ≤ Raw.send_time k)
     (read_kept options since until raw)).
Proof.
  intros Hlimit Hmsg.
  destruct (read_kept_tail options since until raw)
    as (q & older & Hq & _ & _ & Hsorted & Hlength).
  assert (q = limit) as -> by congruence.
  set (kept := read_kept options since until raw) in *.
  pose proof (sort_stage_sorted
                (contains_stage (read_contains options)
                   (window_stage since until (elements raw)))) as Hasc.
  rewrite <- (sort_stage_perm _), Hsorted in Hmsg.
  rewrite Hsorted in Hasc.
  apply elem_of_app in Hmsg as [Holder|Hkept]; [right|by left].
  split.
  - rewrite length_app in Hlength.
    destruct older; [by apply elem_of_nil in Holder|]. cbn in Hlength. lia.
  - apply Forall_forall. intros k Hk.
    by apply (StronglySorted_app_1_elem_of _ _ _ _ _ Hasc).
Qed.

Lemma Forall2_elem_of_l {A B} (R : A → B → Prop) l k x :
  Forall2 R l k → x ∈ l → ∃ y, y ∈ k ∧ R x y.
Proof.
  induction 1 as [|a b l k Hab _ IH]; [by intros ?%elem_of_nil|].
  intros [->|Hx]%elem_of_cons.
  - exists b. split; [constructor|done].
  - destruct (IH Hx) as (y & Hy & Hxy). exists y. split; [by constructor|done].
Qed.

(** Membership in the filter on the body, for any filter text. *)
Lemma elem_of_matching `{engine : Engine} options since until raw msg :
  msg ∈ contains_stage (read_contains options)
          (window_stage since until (elements raw)) ↔
  msg ∈ elements raw ∧ within since until (Raw.send_time msg) ∧
  (read_contains options = "" ∨
   substring (read_contains options) (Raw.body msg)).
Proof.
  destruct (decide (read_contains options = "")) as [Hempty|Hcontains].
  - rewrite Hempty, contains_stage_empty, elem_of_window_stage.
    split; [intros [? ?]; auto|intros (? & ? & _); auto].
  - rewrite elem_of_contains_stage, elem_of_window_stage by done.
    split; [intros [[? ?] ?]; auto|].
    intros (? & ? & [?|?]); [done|auto].
Qed.

(** C2.  [runRead] retains a record exactly when its send time is not below
    [since], if that is supplied, and not above [until], if that is supplied;
    equality with a bound keeps the record.  First for the two send-time
    filters by themselves; with [since] above [until] they retain nothing.
    Then for every run of [runRead] that returns: each returned message has
    its send time within the bounds read from the options; each record of
    the payload within the bounds, and with the filter text in its body if
    one is given, is returned in its normalised form, unless the limit cuts
    it off, in which case as many messages are returned as the limit allows
    and none of them is older; and when the limit cuts nothing off, what is
    returned is exactly the payload filtered by the bounds and the text,
    sorted and normalised.  An inverted window returns nothing. *)
Theorem window_stage_inclusive `{engine : Engine} (since until : option number)
    (msgs : list Raw.Message) :
  (∀ msg, msg ∈ window_stage since until msgs ↔
          msg ∈ msgs ∧ within since until (Raw.send_time msg)) ∧
  (∀ keep : Raw.Message → bool,
     (∀ msg, keep msg = true ↔ within since until (Raw.send_time msg)) →
     window_stage since until msgs = List.filter keep msgs) ∧
  (∀ s u : Z,
     since = Some (JS.of_Z s) → until = Some (JS.of_Z u) →
     (∀ msg, msg ∈ window_stage since until msgs ↔
             msg ∈ msgs ∧ s ≤ Raw.send_time msg ≤ u) ∧
     (u < s → window_stage since until msgs = [])) ∧
  (∀ s u, since = Some s → until = Some u → ¬ num_le s u →
     window_stage since until msgs = []) ∧
  (∀ (client : Client) options out,
     run client (runRead options) = Ok out →
     ∃ since' until' raw limit,
       parseUnixTime (options !! "since") "--since" = Ok since' ∧
       parseUnixTime (options !! "until") "--until" = Ok until' ∧
       client (GetRoomMessages (options !! "room")
                 (parseBool01 (options !! "force") 1)) = Ok raw ∧
       read_limit options = Fin limit ∧
       Forall (λ m, within since' until' (sendTimeUnix m)) out ∧
       (∀ s u, since' = Some s → until' = Some u → ¬ num_le s u →
          out = []) ∧
       (∀ msg,
          msg ∈ elements raw →
          within since' until' (Raw.send_time msg) →
          read_contains options = "" ∨
            substring (read_contains options) (Raw.body msg) →
          (∃ m, m ∈ out ∧
                normalizeReadMessage (options !! "room") msg
                  (JS.truthy (options !! "strip-tags")) = Ok m) ∨
          (length out = Z.to_nat (Qfloor limit) ∧
           Forall (λ m, Raw.send_time msg ≤ sendTimeUnix m) out)) ∧
       (∀ keep : Raw.Message → bool,
          (∀ msg, keep msg = true ↔
                  within since' until' (Raw.send_time msg)) →
          (length (contains_stage (read_contains options)
                     (List.filter keep (elements raw)))
           ≤ Z.to_nat (Qfloor limit))%nat →
          Forall2 (λ msg m, normalizeReadMessage (options !! "room") msg
                              (JS.truthy (options !! "strip-tags")) = Ok m)
            (sort_stage (contains_stage (read_contains options)
                           (List.filter keep (elements raw))))
            out)).
Proof.
  split; [intros msg; apply elem_of_window_stage|].
  split.
  { intros keep Hkeep. rewrite window_stage_filter. apply filter_agree.
    intros msg. by rewrite window_test, Hkeep. }
  split.
  { intros s u -> ->. split.
    - intros msg. rewrite elem_of_window_stage. unfold within.
      split.
      + intros (Hin & Hs & Hu). split; [done|].
        specialize (Hs _ eq_refl). specialize (Hu _ eq_refl).
        by rewrite !num_le_of_Z in *.
      + intros (Hin & Hs & Hu). split; [done|].
        split; intros ? [= <-]; by rewrite num_le_of_Z.
    - intros Hinverted.
      apply (window_stage_inverted _ _ _ (JS.of_Z s) (JS.of_Z u)); [done..|].
      rewrite num_le_of_Z. lia. }
  split; [intros s u; apply window_stage_inverted|].
  intros client options out
    (since' & until' & raw & _ & Hsince & Huntil & Hclient & Hout)%run_runRead.
  destruct (read_limit_range options) as (limit & Hlimit & _ & _).
  exists since', until', raw, limit. split_and!; [done..| | | |].
  - eapply (Forall2_Forall_r _ (λ _, True)); [exact Hout| |].
    + intros msg m Hmsg (iso & -> & _)%normalizeReadMessage_inv _. cbn.
      apply elem_of_read_kept, elem_of_matching in Hmsg. tauto.
    + by apply Forall_forall.
  - intros s u Hs Hu Hinverted. unfold read_kept in Hout.
    rewrite (window_stage_inverted _ _ _ s u Hs Hu Hinverted) in Hout.
    unfold JS.slice in Hout.
    cbn [contains_stage sort_stage List.filter JS.sort foldr] in Hout.
    rewrite drop_nil in Hout. by inversion Hout.
  - intros msg Hin Hwithin Hcontains.
    assert (msg ∈ contains_stage (read_contains options)
                    (window_stage since' until' (elements raw))) as Hmsg
      by (by apply elem_of_matching).
    destruct (read_kept_complete _ _ _ _ _ _ Hlimit Hmsg)
      as [Hkept|[Hlength Holder]].
    + left. by apply (Forall2_elem_of_l _ _ _ _ Hout).
    + right. split; [by rewrite <- (Forall2_length _ _ _ Hout)|].
      eapply Forall2_Forall_r; [exact Hout| |exact Holder].
      intros k m _ (iso & -> & _)%normalizeReadMessage_inv Hk. exact Hk.
  - intros keep Hkeep Hlength.
    assert (window_stage since' until' (elements raw) =
              List.filter keep (elements raw)) as Hwindow.
    { rewrite window_stage_filter. apply filter_agree.
      intros msg. by rewrite window_test, Hkeep. }
    rewrite <- Hwindow in *.
    by rewrite <- (read_kept_all _ _ _ _ _ Hlimit Hlength).
Qed.

Lemma window_stage_inclusive_witness :
  ∃ out,
    run (λ _, Ok (PArray (record_at <$> [50; 100; 150; 200; 250])))
      (runRead (engine := strict_engine)
         {[ "room" := OStr "42"; "since" := OStr "100";
            "until" := OStr "200" ]}) = Ok out ∧
    sendTimeUnix <$> out = [100; 150; 200] ∧
    (∃ m, m ∈ out ∧
          normalizeReadMessage (Some (OStr "42")) (record_at 100) false
            = Ok m) ∧
    (∃ m, m ∈ out ∧
          normalizeReadMessage (Some (OStr "42")) (record_at 200) false
            = Ok m).
Proof.
  destruct (run (λ _, Ok (PArray (record_at <$> [50; 100; 150; 200; 250])))
              (runRead (engine := strict_engine)
                 {[ "room" := OStr "42"; "since" := OStr "100";
                    "until" := OStr "200" ]})) as [out|e] eqn:Hrun;
    [|by vm_compute in Hrun].
  exists out. split; [reflexivity|].
  destruct (proj2 (proj2 (proj2 (proj2
              (window_stage_inclusive (engine := strict_engine) None None []))))
              _ _ _ Hrun)
    as (since' & until' & raw & limit & Hsince & Huntil & Hclient & Hlimit &
        _ & _ & Hkept & _).
  vm_compute in Hsince. injection Hsince as <-.
  vm_compute in Huntil. injection Huntil as <-.
  cbv beta in Hclient. injection Hclient as <-.
  vm_compute in Hlimit. injection Hlimit as <-.
  assert (sendTimeUnix <$> out = [100; 150; 200]) as Htimes.
  { vm_compute in Hrun. injection Hrun as <-. reflexivity. }
  assert (length out = 3%nat) as Hthree
    by (rewrite <- (length_fmap sendTimeUnix), Htimes; reflexivity).
  split; [exact Htimes|]. split.
  - destruct (Hkept (record_at 100)) as [Hm|[Hcut _]].
    + apply list_elem_of_In. right; left; reflexivity.
    + split; intros ? [= <-]; vm_compute; intros [=].
    + left. reflexivity.
    + exact Hm.
    + rewrite Hthree in Hcut. vm_compute in Hcut. discriminate.
  - destruct (Hkept (record_at 200)) as [Hm|[Hcut _]].
    + apply list_elem_of_In. do 3 right; left; reflexivity.
    + split; intros ? [= <-]; vm_compute; intros [=].
    + left. reflexivity.
    + exact Hm.
    + rewrite Hthree in Hcut. vm_compute in Hcut. discriminate.
Defined.

(** C1.  A run of [runRead] that returns a sequence returns the
    normalisations, in order, of the last records of the matching records
    sorted by send time: as many as the whole part of the limit allows, or
    all of them if they are fewer.  Hence the sequence is ascending by send
    time and no longer than the limit.  The limit is the number that
    [--limit] spells, brought into the range from 1 to 100: for decimal
    digits their value, 1 for less and 100 for more; in general what
    [Number] makes of the option if that is finite; and 30 when [--limit]
    is absent or spells no finite number. *)
Theorem runRead_recent `{engine : Engine} (client : Client)
    (options : gmap string optval) (out : list CanonicalMessage) :
  run client (runRead options) = Ok out →
  ∃ (limit : Q) (since until : option number) (raw : payload)
    (older kept : list Raw.Message),
    let matching :=
      contains_stage (read_contains options)
        (window_stage since until (elements raw)) in
    read_limit options = Fin limit ∧
    (1 <= limit)%Q ∧ (limit <= 100)%Q ∧
    (options !! "limit" = None → limit = 30%Q) ∧
    (∀ s, options !! "limit" = Some (OStr s) →
          JS.digits_test s = true → JS.digits_value s < 2 ^ 1023 →
          limit = inject_Z (Z.max 1 (Z.min 100 (JS.digits_value s)))) ∧
    (∀ q, JS.Number (options !! "limit") = Fin q →
          ((100 <= q)%Q → limit = 100%Q) ∧
          ((1 <= q)%Q → (q < 100)%Q → limit = q) ∧
          ((q < 1)%Q → limit = 1%Q)) ∧
    (JS.isFinite (JS.Number (options !! "limit")) = false → limit = 30%Q) ∧
    parseUnixTime (options !! "since") "--since" = Ok since ∧
    parseUnixTime (options !! "until") "--until" = Ok until ∧
    client (GetRoomMessages (options !! "room")
              (parseBool01 (options !! "force") 1)) = Ok raw ∧
    sort_stage matching = older ++ kept ∧
    older ++ kept ≡ₚ matching ∧
    StronglySorted by_send_time (older ++ kept) ∧
    length kept = (Z.to_nat (Qfloor limit) `min` length matching)%nat ∧
    Forall2 (λ msg m, normalizeReadMessage (options !! "room") msg
                        (JS.truthy (options !! "strip-tags")) = Ok m)
      kept out ∧
    sendTimeUnix <$> out = Raw.send_time <$> kept ∧
    StronglySorted Z.le (sendTimeUnix <$> out) ∧
    (inject_Z (Z.of_nat (length out)) <= limit)%Q.
Proof.
  intros (since & until & raw & _ & Hsince & Huntil & Hclient & Hout)
    %run_runRead.
  destruct (read_kept_tail options since until raw)
    as (limit & older & Hlimit & Hlo & Hhi & Hsorted & Hlength).
  set (kept := read_kept options since until raw) in *.
  exists limit, since, until, raw, older, kept. cbn zeta.
  set (matching := contains_stage _ _) in *.
  assert (older ++ kept ≡ₚ matching) as Hperm
    by (rewrite <- Hsorted; apply sort_stage_perm).
  assert (StronglySorted by_send_time (older ++ kept)) as Hasc
    by (rewrite <- Hsorted; apply sort_stage_sorted).
  assert (sendTimeUnix <$> out = Raw.send_time <$> kept) as Htimes.
  { symmetry. eapply Forall2_fmap_eq; [exact Hout|].
    by intros msg m (iso & -> & _)%normalizeReadMessage_inv. }
  assert (length out = length kept) as Hsame
    by (symmetry; by eapply Forall2_length).
  rewrite (Permutation_length Hperm) in Hlength.
  pose proof (read_limit_Number options) as HNumber.
  split_and!; try done.
  - intros Hnone. rewrite (read_limit_default options Hnone) in Hlimit.
    by injection Hlimit as <-.
  - intros s Hs Hdigits Hfinite.
    rewrite (read_limit_digits options s Hs Hdigits Hfinite) in Hlimit.
    by injection Hlimit as <-.
  - intros q Hq. rewrite Hq, Hlimit in HNumber. injection HNumber as ->.
    split_and!.
    + intros Hhi'%Qle_bool_iff. by rewrite Hhi'.
    + intros Hlo' Hlt.
      destruct (Qle_bool 100 q) eqn:Hle.
      { apply Qle_bool_iff in Hle. lra. }
      apply Qle_bool_iff in Hlo'. by rewrite Hlo'.
    + intros Hlt.
      destruct (Qle_bool 100 q) eqn:Hle.
      { apply Qle_bool_iff in Hle. lra. }
      destruct (Qle_bool 1 q) eqn:Hle'; [|done].
      apply Qle_bool_iff in Hle'. lra.
  - intros Hinfinite.
    destruct (JS.Number (options !! "limit")); [..|done];
      rewrite Hlimit in HNumber; by injection HNumber as ->.
  - rewrite Htimes. apply StronglySorted_app_1_r in Hasc.
    by eapply StronglySorted_fmap; [|exact Hasc].
  - eapply Qle_trans; [|apply (Qfloor_le limit)].
    rewrite <- Zle_Qle. rewrite Hsame, Hlength.
    assert (1 ≤ Qfloor limit).
    { change 1 with (Qfloor (inject_Z 1)). by apply Qfloor_resp_le. }
    lia.
Qed.

Lemma runRead_recent_witness :
  ∃ out,
    run (λ _, Ok (PArray (record_at <$> [100; 200; 50; 300])))
      (runRead (engine := strict_engine)
         {[ "room" := OStr "42"; "limit" := OStr "2" ]}) = Ok out ∧
    sendTimeUnix <$> out = [200; 300] ∧
    ∃ limit older kept,
      read_limit (engine := strict_engine)
        {[ "room" := OStr "42"; "limit" := OStr "2" ]} = Fin limit ∧
      limit = 2%Q ∧
      sort_stage (record_at <$> [100; 200; 50; 300]) = older ++ kept ∧
      length kept = 2%nat ∧
      Raw.send_time <$> kept = [200; 300].
Proof.
  destruct (run (λ _, Ok (PArray (record_at <$> [100; 200; 50; 300])))
              (runRead (engine := strict_engine)
                 {[ "room" := OStr "42"; "limit" := OStr "2" ]}))
    as [out|e] eqn:Hrun; [|by vm_compute in Hrun].
  exists out. split; [reflexivity|].
  destruct (runRead_recent (engine := strict_engine) _ _ _ Hrun)
    as (limit & since & until & raw & older & kept & Hlimit & _ & _ & _ &
        Hdigits & _ & _ & Hsince & Huntil & Hclient & Hsorted & _ & _ &
        Hlength & _ & Htimes & _ & _).
  vm_compute in Hsince. injection Hsince as <-.
  vm_compute in Huntil. injection Huntil as <-.
  cbv beta in Hclient. injection Hclient as <-.
  assert (limit = 2%Q) as -> by (apply (Hdigits "2"); reflexivity).
  assert (sendTimeUnix <$> out = [200; 300]) as Hout.
  { vm_compute in Hrun. injection Hrun as <-. reflexivity. }
  split; [exact Hout|].
  exists 2%Q, older, kept. split_and!.
  - exact Hlimit.
  - reflexivity.
  - exact Hsorted.
  - exact Hlength.
  - rewrite <- Htimes. exact Hout.
Defined.

(** The scenario of the specification: send times 100, 200, 50, 300 and a
    limit of 2 give the send times 200, 300. *)
Example runRead_scenario `{engine : Engine} :
  let record t :=
    {| Raw.message_id := "m"; Raw.account := None; Raw.body := "text";
       Raw.send_time := t |} in
  fmap (M := result) (fmap sendTimeUnix)
    (run (λ _, Ok (PArray (record <$> [100; 200; 50; 300])))
       (runRead {[ "room" := OStr "42"; "limit" := OStr "2" ]}))
  = Ok [200; 300].
Proof. by vm_compute. Qed.

(** ** [parseArgs] *)

Lemma includes_char s c : JS.includes s (String c "") = occurs c s.
Proof.
  induction s as [|d s IH]; [done|].
  cbn [JS.includes occurs]. rewrite IH. f_equal.
  cbn. destruct (Ascii.ascii_dec c d) as [->|Hne].
  - rewrite Ascii.eqb_refl. by destruct s.
  - symmetry. apply Ascii.eqb_neq. congruence.
Qed.

Lemma occurs_app c s t : occurs c (s +:+ t) = occurs c s || occurs c t.
Proof.
  induction s as [|d s IH]; [done|].
  rewrite string_app_cons. cbn. by rewrite IH, orb_assoc.
Qed.

Lemma startsWith_dashes x : JS.startsWith ("--" +:+ x) "--" = true.
Proof. apply prefix_spec. by exists x. Qed.

(** One round of the loop on an argument [--key=value]. *)
Lemma parseArgs_loop_assignment k v rest options positionals :
  occurs "=" k = false →
  parseArgs_loop (("--" +:+ k +:+ "=" +:+ v) :: rest) options positionals =
  parseArgs_loop rest (JS.assign k (OStr v) options) positionals.
Proof.
  intros Hk. cbn [parseArgs_loop].
  rewrite startsWith_dashes.
  change (JS.slice_from 2 ("--" +:+ k +:+ "=" +:+ v)) with (k +:+ "=" +:+ v).
  cbn [negb].
  rewrite includes_char, occurs_app, Hk.
  change ("=" +:+ v) with (String "="%char v).
  cbn [orb occurs]. rewrite Ascii.eqb_refl. cbn [orb].
  rewrite split_app by done.
  by rewrite (proj1 (join_split "=" v)).
Qed.

(** One round of the loop on a flag that takes the next argument. *)
Lemma parseArgs_loop_flag_value k v rest options positionals :
  occurs "=" k = false → v ≠ "" → JS.startsWith v "--" = false →
  parseArgs_loop (("--" +:+ k) :: v :: rest) options positionals =
  parseArgs_loop rest (JS.assign k (OStr v) options) positionals.
Proof.
  intros Hk Hv Hdash. cbn [parseArgs_loop].
  rewrite startsWith_dashes.
  change (JS.slice_from 2 ("--" +:+ k)) with k.
  cbn [negb]. rewrite includes_char, Hk, Hdash.
  apply nonempty_spec in Hv. by rewrite Hv.
Qed.

Lemma assign_insert {V} k (v : V) o :
  k ≠ "__proto__" → JS.assign k v o = <[k := v]> o.
Proof.
  intros Hk. unfold JS.assign. by destruct (String.eqb_spec k "__proto__").
Qed.

Lemma parseArgs_loop_assignments kvs options positionals :
  Forall (λ kv : string * string, occurs "=" kv.1 = false) kvs →
  parseArgs_loop ((λ kv, "--" +:+ kv.1 +:+ "=" +:+ kv.2) <$> kvs)
    options positionals =
  (foldl (λ o kv, JS.assign kv.1 (OStr kv.2) o) options kvs, positionals).
Proof.
  revert options. induction kvs as [|[k v] kvs IH]; intros options Hkeys;
    [done|].
  apply Forall_cons in Hkeys as [Hk Hkeys]. cbn [fmap list_fmap fst snd].
  rewrite parseArgs_loop_assignment by done. by rewrite IH.
Qed.

(** X1.  Arguments of the form [--key=value] are stored as they stand, one
    after the other, a later one replacing an earlier one with its key; the
    value may be empty, hold further [=] or begin with [--].  There are no
    positionals. *)
Theorem parseArgs_assignments (kvs : list (string * string)) :
  Forall (λ kv, occurs "=" kv.1 = false ∧ kv.1 ≠ "__proto__") kvs →
  parseArgs ((λ kv, "--" +:+ kv.1 +:+ "=" +:+ kv.2) <$> kvs) =
    (foldl (λ o kv, <[kv.1 := OStr kv.2]> o) ∅ kvs, []).
Proof.
  intros Hkeys. unfold parseArgs.
  rewrite parseArgs_loop_assignments
    by (eapply Forall_impl; [exact Hkeys|]; by intros ? [? ?]).
  f_equal. generalize (∅ : gmap string optval).
  induction Hkeys as [|[k v] kvs [_ Hk] _ IH]; intros o; [done|].
  cbn [foldl fst snd]. by rewrite assign_insert, IH.
Qed.

Lemma parseArgs_assignments_witness :
  parseArgs ["--to=1,2"; "--message=a=b"; "--to="; "--x=--y"] =
    (<["x" := OStr "--y"]> (<["to" := OStr ""]> (<["message" := OStr "a=b"]>
       (<["to" := OStr "1,2"]> ∅))), []).
Proof.
  refine (parseArgs_assignments
            [("to", "1,2"); ("message", "a=b"); ("to", ""); ("x", "--y")] _).
  repeat constructor; discriminate.
Defined.

(** X2.  A flag followed by its value says the same as the flag joined to
    the value with [=], provided the value is not empty and does not begin
    with [--]. *)
Theorem parseArgs_spellings (kvs : list (string * string)) :
  Forall (λ kv, occurs "=" kv.1 = false ∧ kv.2 ≠ "" ∧
                JS.startsWith kv.2 "--" = false) kvs →
  parseArgs (concat ((λ kv, ["--" +:+ kv.1; kv.2]) <$> kvs)) =
  parseArgs ((λ kv, "--" +:+ kv.1 +:+ "=" +:+ kv.2) <$> kvs).
Proof.
  intros Hkvs. unfold parseArgs.
  rewrite parseArgs_loop_assignments
    by (eapply Forall_impl; [exact Hkvs|]; by intros ? [? ?]).
  generalize (∅ : gmap string optval).
  induction Hkvs as [|[k v] kvs (Hk & Hv & Hdash) _ IH]; intros o; [done|].
  cbn [fmap list_fmap concat app fst snd foldl].
  rewrite parseArgs_loop_flag_value by done. apply IH.
Qed.

Lemma parseArgs_spellings_witness :
  parseArgs ["--room"; "42"; "--to"; "1, 2"] =
  parseArgs ["--room=42"; "--to=1, 2"].
Proof.
  refine (parseArgs_spellings [("room", "42"); ("to", "1, 2")] _).
  repeat constructor; discriminate.
Defined.

Lemma parseArgs_loop_positionals argv options positionals :
  ∃ more,
    (parseArgs_loop argv options positionals).2 = positionals ++ more ∧
    more `sublist_of` argv ∧
    Forall (λ arg, JS.startsWith arg "--" = false) more.
Proof.
  remember (length argv) as n eqn:Hn.
  revert argv options positionals Hn.
  induction n as [n IH] using lt_wf_ind. intros argv options positionals ->.
  destruct argv as [|arg rest].
  { exists []. by rewrite app_nil_r. }
  assert (∀ o p, ∃ more,
            (parseArgs_loop rest o p).2 = p ++ more ∧
            more `sublist_of` arg :: rest ∧
            Forall (λ arg, JS.startsWith arg "--" = false) more) as Hrest.
  { intros o p.
    destruct (IH (length rest) ltac:(cbn; lia) rest o p eq_refl)
      as (more & ? & ? & ?).
    exists more. split_and!; [done| |done]. by apply sublist_cons. }
  cbn [parseArgs_loop].
  destruct (JS.startsWith arg "--") eqn:Hdash; cbn [negb].
  - destruct (JS.includes _ "=").
    + destruct (JS.split _ _); apply Hrest.
    + destruct rest as [|next rest']; [apply Hrest|].
      destruct (_ && _); [|apply Hrest].
      destruct (IH (length rest') ltac:(cbn; lia) rest'
                  (JS.assign (JS.slice_from 2 arg) (OStr next) options)
                  positionals eq_refl) as (more & ? & ? & ?).
      exists more. split_and!; [done| |done]. by do 2 apply sublist_cons.
  - destruct (IH (length rest) ltac:(cbn; lia) rest options
                (positionals ++ [arg]) eq_refl) as (more & Hmore & ? & ?).
    exists (arg :: more). split_and!.
    + by rewrite Hmore, <- app_assoc.
    + by apply sublist_skip.
    + by constructor.
Qed.

Lemma parseArgs_loop_plain argv options positionals :
  Forall (λ arg, JS.startsWith arg "--" = false) argv →
  parseArgs_loop argv options positionals = (options, positionals ++ argv).
Proof.
  intros Hplain. revert positionals.
  induction Hplain as [|arg rest Harg _ IH]; intros positionals.
  - by rewrite app_nil_r.
  - cbn [parseArgs_loop]. rewrite Harg. cbn [negb].
    by rewrite IH, <- app_assoc.
Qed.

(** X3.  The positionals are arguments that do not begin with [--], in the
    order of the command line; and when no argument begins with [--], all
    arguments are positionals and there are no options. *)
Theorem parseArgs_positionals (argv : list string) :
  (parseArgs argv).2 `sublist_of` argv ∧
  Forall (λ arg, JS.startsWith arg "--" = false) (parseArgs argv).2 ∧
  (Forall (λ arg, JS.startsWith arg "--" = false) argv →
   parseArgs argv = (∅, argv)).
Proof.
  unfold parseArgs.
  destruct (parseArgs_loop_positionals argv ∅ []) as (more & -> & ? & ?).
  split_and!; [done..|]. apply parseArgs_loop_plain.
Qed.

(** An argument that begins with [--] is no value of the flag before it:
    what precedes it is read as if it were the end of the command line. *)
Lemma parseArgs_loop_snoc argv a options positionals :
  JS.startsWith a "--" = true →
  parseArgs_loop (argv ++ [a]) options positionals =
    parseArgs_loop [a] (parseArgs_loop argv options positionals).1
      (parseArgs_loop argv options positionals).2.
Proof.
  intros Ha.
  remember (λ r : gmap string optval * list string,
              parseArgs_loop [a] r.1 r.2) as F eqn:HF.
  enough (∀ n argv o p, length argv = n →
            parseArgs_loop (argv ++ [a]) o p = F (parseArgs_loop argv o p))
    as Hloop by (rewrite (Hloop _ _ _ _ eq_refl); by subst F).
  clear options positionals argv.
  induction n as [n IH] using lt_wf_ind. intros argv o p <-.
  destruct argv as [|arg rest]; [by subst F|].
  rewrite <- app_comm_cons. cbn [parseArgs_loop].
  destruct (JS.startsWith arg "--"); cbn [negb].
  - destruct (JS.includes _ "=").
    + destruct (JS.split _ _); apply (IH (length rest)); cbn; lia.
    + destruct rest as [|next rest'].
      * cbn [app]. rewrite Ha, andb_false_r.
        cbn [parseArgs_loop]. by subst F.
      * rewrite <- app_comm_cons. destruct (_ && _).
        -- apply (IH (length rest')); cbn; lia.
        -- rewrite app_comm_cons. apply (IH (length (next :: rest'))); cbn; lia.
  - apply (IH (length rest)); cbn; lia.
Qed.

(** X14.  A last argument [--key=value] overrides what the arguments before
    it say about the key and leaves the rest of their reading as it is. *)
Theorem parseArgs_override (argv : list string) (k v : string) :
  occurs "=" k = false → k ≠ "__proto__" →
  parseArgs (argv ++ ["--" +:+ k +:+ "=" +:+ v]) =
    (<[k := OStr v]> (parseArgs argv).1, (parseArgs argv).2) ∧
  (parseArgs (argv ++ ["--" +:+ k +:+ "=" +:+ v])).1 !! k = Some (OStr v).
Proof.
  intros Hk Hproto.
  assert (parseArgs (argv ++ ["--" +:+ k +:+ "=" +:+ v]) =
            (<[k := OStr v]> (parseArgs argv).1, (parseArgs argv).2)) as ->.
  { unfold parseArgs.
    rewrite parseArgs_loop_snoc by apply startsWith_dashes.
    rewrite parseArgs_loop_assignment by done.
    by rewrite assign_insert. }
  split; [done|]. apply lookup_insert_eq.
Qed.

Lemma parseArgs_override_witness :
  (parseArgs (["--token"; "old"; "stray"] ++ ["--" +:+ "token" +:+ "=" +:+ "new"])).1
    !! "token" = Some (OStr "new").
Proof.
  apply (parseArgs_override ["--token"; "old"; "stray"] "token" "new").
  - reflexivity.
  - discriminate.
Defined.

(** ** [maybeLoadEnvFile] *)

(** *** Trimming *)

Lemma trim_start_fixed s : starts_with_ws s = false → JS.trim_start s = s.
Proof. destruct s as [|c s]; [done|]. cbn. by intros ->. Qed.

Lemma trim_end_fixed s : ends_with_ws s = false → JS.trim_end s = s.
Proof.
  induction s as [|c s IH]; [done|]. cbn [ends_with_ws JS.trim_end].
  destruct s as [|d s]; [by intros ->|]. intros Hs. by rewrite (IH Hs).
Qed.

Lemma trim_start_app a c b :
  JS.is_ws c = false →
  JS.trim_start (a +:+ String c b) = JS.trim_start a +:+ String c b.
Proof.
  intros Hc. induction a as [|d a IH].
  - rewrite !string_app_nil. cbn. by rewrite Hc.
  - rewrite string_app_cons. cbn [JS.trim_start].
    destruct (JS.is_ws d); [done|]. by rewrite string_app_cons.
Qed.

Lemma trim_end_cons c b :
  JS.is_ws c = false → JS.trim_end (String c b) = String c (JS.trim_end b).
Proof. intros Hc. cbn. rewrite Hc. by destruct (JS.trim_end b). Qed.

Lemma trim_end_app a c b :
  JS.is_ws c = false →
  JS.trim_end (a +:+ String c b) = a +:+ String c (JS.trim_end b).
Proof.
  intros Hc. induction a as [|d a IH].
  - rewrite !string_app_nil. by apply trim_end_cons.
  - rewrite !string_app_cons. cbn [JS.trim_end]. rewrite IH.
    by destruct a.
Qed.

Lemma trim_app a c b :
  JS.is_ws c = false →
  JS.trim (a +:+ String c b) = JS.trim_start a +:+ String c (JS.trim_end b).
Proof.
  intros Hc. unfold JS.trim.
  by rewrite trim_start_app, trim_end_app.
Qed.

Lemma trim_trim_start s : JS.trim (JS.trim_start s) = JS.trim s.
Proof.
  unfold JS.trim. by rewrite (trim_start_fixed _ (trim_start_head s)).
Qed.

Lemma all_ws_trim_start s : all_ws s = true → JS.trim_start s = "".
Proof.
  induction s as [|c s IH]; [done|]. cbn.
  intros [-> Hs]%andb_true_iff. by apply IH.
Qed.

Lemma all_ws_trim_end s : all_ws s = true → JS.trim_end s = "".
Proof.
  induction s as [|c s IH]; [done|]. cbn.
  intros [Hc Hs]%andb_true_iff. by rewrite (IH Hs), Hc.
Qed.

Lemma trim_trim_end s : JS.trim (JS.trim_end s) = JS.trim s.
Proof.
  destruct (trim_start_decompose s) as (l & Hs & Hl).
  destruct (JS.trim_start s) as [|c b] eqn:Hstart.
  - rewrite string_app_nil_r in Hs. rewrite <- Hs in Hl.
    rewrite (all_ws_trim_end _ Hl). unfold JS.trim. by rewrite Hstart.
  - assert (JS.is_ws c = false) as Hc.
    { pose proof (trim_start_head s) as Hhead. by rewrite Hstart in Hhead. }
    unfold JS.trim at 2. rewrite Hstart. rewrite Hs at 1.
    rewrite trim_end_app, trim_app by done.
    rewrite (all_ws_trim_start _ Hl), string_app_nil.
    rewrite trim_end_cons by done.
    by rewrite (trim_end_fixed _ (trim_end_last b)).
Qed.

Lemma trim_CR s : JS.trim (s +:+ String JS.CR "") = JS.trim s.
Proof.
  rewrite <- (trim_trim_end (s +:+ _)).
  assert (JS.trim_end (s +:+ String JS.CR "") = JS.trim_end s) as ->;
    [|apply trim_trim_end].
  induction s as [|c s IH]; [done|].
  rewrite string_app_cons. cbn [JS.trim_end]. by rewrite IH.
Qed.

Lemma prefix_nil s : String.prefix "" s = true.
Proof. by destruct s. Qed.

Lemma startsWith_char_cons d s c :
  JS.startsWith (String d s) (String c "") = Ascii.eqb c d.
Proof.
  unfold JS.startsWith. cbn [String.prefix].
  destruct (Ascii.ascii_dec c d) as [->|Hne].
  - by rewrite prefix_nil, Ascii.eqb_refl.
  - symmetry. by apply Ascii.eqb_neq.
Qed.

Lemma startsWith_char_trim s c :
  starts_with_ws s = false →
  JS.startsWith (JS.trim s) (String c "") = JS.startsWith s (String c "").
Proof.
  intros Hs. unfold JS.trim. rewrite trim_start_fixed by done.
  destruct s as [|d s]; [done|]. cbn in Hs.
  rewrite trim_end_cons by done. by rewrite !startsWith_char_cons.
Qed.

Lemma occurs_trim_start c s :
  occurs c s = false → occurs c (JS.trim_start s) = false.
Proof.
  induction s as [|d s IH]; [done|]. cbn [JS.trim_start].
  destruct (JS.is_ws d); [|done]. cbn. intros [_ Hs]%orb_false_iff. auto.
Qed.

Lemma occurs_trim_end c s :
  occurs c s = false → occurs c (JS.trim_end s) = false.
Proof.
  induction s as [|d s IH]; [done|]. cbn [JS.trim_end occurs].
  intros [Hd Hs]%orb_false_iff. specialize (IH Hs).
  destruct (JS.trim_end s); [|by cbn in *; rewrite Hd].
  destruct (JS.is_ws d); [done|]. cbn. by rewrite Hd.
Qed.

Lemma occurs_trim c s : occurs c s = false → occurs c (JS.trim s) = false.
Proof. intros Hs. by apply occurs_trim_end, occurs_trim_start. Qed.

(** *** Cutting a line at its first [=] *)

Lemma indexOf_app c a b :
  occurs c a = false →
  JS.indexOf c (a +:+ String c b) = Some (String.length a).
Proof.
  induction a as [|d a IH].
  - intros _. rewrite string_app_nil. cbn. by rewrite Ascii.eqb_refl.
  - rewrite string_app_cons. cbn. intros [-> Ha]%orb_false_iff.
    by rewrite (IH Ha).
Qed.

Lemma slice_to_app a b : JS.slice_to (String.length a) (a +:+ b) = a.
Proof.
  induction a as [|d a IH]; [done|]. rewrite string_app_cons. cbn.
  by rewrite IH.
Qed.

Lemma slice_from_app a c b :
  JS.slice_from (S (String.length a)) (a +:+ String c b) = b.
Proof.
  induction a as [|d a IH]; [done|]. rewrite string_app_cons. cbn.
  apply IH.
Qed.

Lemma indexOf_slice_to c s idx :
  JS.indexOf c s = Some idx → occurs c (JS.slice_to idx s) = false.
Proof.
  revert idx. induction s as [|d s IH]; intros idx; [done|]. cbn.
  destruct (Ascii.eqb d c) eqn:Hd; [by intros [= <-]|].
  destruct (JS.indexOf c s) as [n|]; [|done]. intros [= <-]. cbn.
  by rewrite Hd, (IH n).
Qed.

(** What a line [key=value] defines. *)
Lemma env_entry_define k v :
  occurs "=" k = false →
  JS.startsWith (JS.trim k) "#" = false →
  env_entry (k +:+ "=" +:+ v) = Some (JS.trim k, JS.unquote (JS.trim v)).
Proof.
  intros Hk Hcomment. unfold env_entry.
  change ("=" +:+ v) with (String "="%char v).
  rewrite trim_app by done.
  assert (JS.startsWith (JS.trim_start k +:+ String "=" (JS.trim_end v)) "#"
          = false) as ->.
  { rewrite <- trim_trim_start in Hcomment.
    rewrite startsWith_char_trim in Hcomment by apply trim_start_head.
    destruct (JS.trim_start k) as [|a s]; [done|].
    rewrite string_app_cons.
    by rewrite startsWith_char_cons in *. }
  assert (nonempty (JS.trim_start k +:+ String "=" (JS.trim_end v)) = true)
    as -> by (by destruct (JS.trim_start k)).
  cbn [negb orb].
  rewrite indexOf_app by (by apply occurs_trim_start).
  rewrite slice_to_app, slice_from_app.
  by rewrite trim_trim_start, trim_trim_end.
Qed.

(** *** Lines *)

Lemma split_lines_nonempty s : JS.split_lines s ≠ [].
Proof.
  destruct s as [|c s]; [done|]. cbn [JS.split_lines].
  destruct (Ascii.eqb c JS.LF); [done|].
  destruct (JS.split_lines s) eqn:Hs;
    destruct (Ascii.eqb c JS.CR); try done;
    destruct s as [|d s']; try done; by destruct (Ascii.eqb d JS.LF).
Qed.


Lemma split_cons_ne sep c s :
  Ascii.eqb c sep = false →
  ∃ piece pieces, JS.split sep s = piece :: pieces ∧
                  JS.split sep (String c s) = String c piece :: pieces.
Proof.
  intros Hc. cbn [JS.split]. rewrite Hc.
  destruct (JS.split sep s) as [|piece pieces] eqn:Hs;
    [by apply split_nonempty in Hs|]. eauto.
Qed.

(** The carriage return of a line end is gone from the line; apart from
    that the lines are the pieces between line feeds. *)
Lemma split_lines_split s :
  Forall2 (λ line piece, piece = line ∨ piece = line +:+ String JS.CR "")
    (JS.split_lines s) (JS.split JS.LF s).
Proof.
  remember (String.length s) as n eqn:Hn. revert s Hn.
  induction n as [n IH] using lt_wf_ind. intros s ->.
  destruct s as [|c s]; [by repeat constructor|].
  pose proof (IH (String.length s) ltac:(cbn; lia) s eq_refl) as IHs.
  cbn [JS.split_lines].
  destruct (Ascii.eqb c JS.LF) eqn:Hc.
  { cbn [JS.split]. rewrite Hc. constructor; [by left|done]. }
  destruct (split_cons_ne JS.LF c s Hc) as (piece & pieces & Hs & ->).
  assert (Forall2
            (λ line piece, piece = line ∨ piece = line +:+ String JS.CR "")
            match JS.split_lines s with
            | [] => [String c ""]
            | line :: lines => String c line :: lines
            end (String c piece :: pieces)) as Hkeep.
  { rewrite Hs in IHs.
    inversion IHs as [|line ? lines ? Hline Hlines]; subst.
    constructor; [|done]. destruct Hline as [->| ->]; [by left|by right]. }
  destruct (Ascii.eqb c JS.CR) eqn:Hcr; [|done].
  destruct s as [|d s']; [done|].
  destruct (Ascii.eqb d JS.LF) eqn:Hd; [|done].
  cbn [JS.split] in Hs. rewrite Hd in Hs. injection Hs as <- <-.
  apply Ascii.eqb_eq in Hcr as ->.
  constructor; [by right|].
  apply (IH (String.length s') ltac:(cbn; lia) s' eq_refl).
Qed.

Lemma env_entry_CR line :
  env_entry (line +:+ String JS.CR "") = env_entry line.
Proof. unfold env_entry. by rewrite trim_CR. Qed.

Lemma foldl_env_step_pieces envMap lines pieces :
  Forall2 (λ line piece, piece = line ∨ piece = line +:+ String JS.CR "")
    lines pieces →
  foldl env_step envMap lines = foldl env_step envMap pieces.
Proof.
  intros Hlines. revert envMap.
  induction Hlines as [|line piece lines pieces Hline _ IH]; intros envMap;
    [done|].
  cbn [foldl]. rewrite IH. f_equal. unfold env_step.
  destruct Hline as [->| ->]; [done|]. by rewrite env_entry_CR.
Qed.

Lemma split_lines_free line :
  occurs JS.LF line = false → JS.split_lines line = [line].
Proof.
  induction line as [|c line IH]; [done|]. cbn [occurs JS.split_lines].
  intros [Hc Hline]%orb_false_iff. rewrite Hc, (IH Hline).
  destruct (Ascii.eqb c JS.CR); [|done].
  destruct line as [|d line]; [done|].
  cbn [occurs] in Hline. apply orb_false_iff in Hline as [-> _]. done.
Qed.

Lemma split_lines_app_CRLF line rest :
  occurs JS.LF line = false →
  JS.split_lines (line +:+ String JS.CR (String JS.LF rest)) =
    line :: JS.split_lines rest.
Proof.
  induction line as [|c line IH].
  - intros _. rewrite string_app_nil. reflexivity.
  - cbn [occurs]. intros [Hc Hline]%orb_false_iff.
    rewrite string_app_cons. cbn [JS.split_lines]. rewrite Hc, (IH Hline).
    destruct (Ascii.eqb c JS.CR); [|done].
    destruct line as [|d line].
    + rewrite string_app_nil. reflexivity.
    + rewrite string_app_cons. cbn [occurs] in Hline.
      apply orb_false_iff in Hline as [-> _]. done.
Qed.

Lemma split_lines_join_CRLF lines :
  lines ≠ [] → Forall (λ line, occurs JS.LF line = false) lines →
  JS.split_lines (JS.join (String JS.CR newline) lines) = lines.
Proof.
  induction lines as [|line lines IH]; [done|]. intros _ Hfree.
  apply Forall_cons in Hfree as [Hline Hfree].
  destruct lines as [|line' lines]; [by apply split_lines_free|].
  rewrite join_cons. unfold newline at 1.
  rewrite string_app_cons, string_app_cons, string_app_nil.
  rewrite split_lines_app_CRLF by done. f_equal. by apply IH.
Qed.

Lemma env_entry_blank : env_entry "" = None.
Proof. reflexivity. Qed.

(** The map of a text is that of its lines, taken in order, whether they
    end in a line feed or in a carriage return and a line feed. *)
Lemma loadEnvText_lines lines :
  Forall (λ line, occurs JS.LF line = false) lines →
  loadEnvText (JS.join newline lines) = foldl env_step ∅ lines ∧
  loadEnvText (JS.join (String JS.CR newline) lines) = foldl env_step ∅ lines.
Proof.
  intros Hfree. destruct lines as [|line lines]; [done|]. split.
  - unfold loadEnvText.
    rewrite (foldl_env_step_pieces _ _ _ (split_lines_split _)).
    unfold newline. by rewrite (split_join JS.LF).
  - unfold loadEnvText. by rewrite split_lines_join_CRLF.
Qed.

(** X4.  A file with Windows line ends loads like the same file with Unix
    line ends: both give the map of the lines taken in order. *)
Theorem loadEnvText_line_ends (lines : list string) :
  Forall (λ line, occurs JS.LF line = false) lines →
  loadEnvText (JS.join (String JS.CR newline) lines) =
  loadEnvText (JS.join newline lines).
Proof.
  intros Hfree. destruct (loadEnvText_lines lines Hfree) as [-> ->]. done.
Qed.

Lemma loadEnvText_line_ends_witness :
  loadEnvText (JS.join (String JS.CR newline) ["A=1"; "# note"; "B='x'"]) =
  loadEnvText (JS.join newline ["A=1"; "# note"; "B='x'"]).
Proof.
  refine (loadEnvText_line_ends ["A=1"; "# note"; "B='x'"] _).
  repeat constructor.
Defined.

(** A last line is one more step of the loop. *)
Lemma loadEnvText_snoc (lines : list string) (line : string) :
  Forall (λ line, occurs JS.LF line = false) lines →
  occurs JS.LF line = false →
  loadEnvText (JS.join newline (lines ++ [line])) =
    env_step (loadEnvText (JS.join newline lines)) line.
Proof.
  intros Hlines Hline.
  rewrite (proj1 (loadEnvText_lines (lines ++ [line])
                    ltac:(apply Forall_app; by repeat constructor))).
  rewrite (proj1 (loadEnvText_lines lines Hlines)).
  by rewrite foldl_app.
Qed.

(** X5.  A last line [key=value] adds to what the lines before it define:
    the key is the text before the first [=], trimmed; the value is the text
    after it, trimmed and without a quote at its start and at its end; an
    earlier value of the key is replaced and all other keys stay. *)
Theorem loadEnvText_define (lines : list string) (k v : string) :
  Forall (λ line, occurs JS.LF line = false) lines →
  occurs JS.LF (k +:+ "=" +:+ v) = false →
  occurs "=" k = false →
  JS.startsWith (JS.trim k) "#" = false →
  JS.trim k ≠ "__proto__" →
  loadEnvText (JS.join newline (lines ++ [k +:+ "=" +:+ v])) =
    <[JS.trim k := JS.unquote (JS.trim v)]>
      (loadEnvText (JS.join newline lines)).
Proof.
  intros Hlines Hline Hk Hcomment Hproto.
  rewrite loadEnvText_snoc by done. unfold env_step.
  rewrite env_entry_define by done. by apply assign_insert.
Qed.

Lemma loadEnvText_define_witness :
  loadEnvText (JS.join newline ["A=1"; " A = ' two ' "]) =
    <["A" := " two "]> (loadEnvText "A=1").
Proof.
  refine (loadEnvText_define ["A=1"] " A " " ' two ' " _ _ _ _ _).
  - repeat constructor.
  - reflexivity.
  - reflexivity.
  - reflexivity.
  - discriminate.
Defined.

Lemma drop_last_quote_snoc w q :
  JS.is_quote q = true → JS.drop_last_quote (w +:+ String q "") = w.
Proof.
  intros Hq. induction w as [|c w IH].
  - rewrite string_app_nil. cbn. by rewrite Hq.
  - rewrite string_app_cons. cbn [JS.drop_last_quote]. rewrite IH.
    by destruct w.
Qed.

Lemma is_quote_not_ws q : JS.is_quote q = true → JS.is_ws q = false.
Proof.
  unfold JS.is_quote, JS.is_ws.
  intros [Hq|Hq]%orb_true_iff; apply Z.eqb_eq in Hq; rewrite Hq; done.
Qed.

(** What stands between two quotes is the value, as it stands. *)
Lemma unquote_quoted q w q' :
  JS.is_quote q = true → JS.is_quote q' = true →
  JS.unquote (JS.trim (String q (w +:+ String q' ""))) = w.
Proof.
  intros Hq Hq'.
  change (String q (w +:+ String q' "")) with ("" +:+ String q (w +:+ String q' "")).
  rewrite trim_app by (by apply is_quote_not_ws).
  rewrite trim_end_app by (by apply is_quote_not_ws).
  cbn [JS.trim_start JS.trim_end]. rewrite string_app_nil.
  cbn [JS.unquote]. rewrite Hq. by apply drop_last_quote_snoc.
Qed.

(** X6.  When neither [--token] nor the two environment variables hold a
    token, the token is what the last line [CHATWORK_API_TOKEN=...] of the
    env file gives: the text after [=], trimmed and unquoted; a token between
    two quotes is taken as it stands. *)
Theorem resolveToken_env_file (options : gmap string optval)
    (process_env : gmap string string) (lines : list string)
    (v token : string) :
  JS.truthy (options !! "token") = false →
  JS.truthy (JS.prop process_env "CHATWORK_API_TOKEN") = false →
  JS.truthy (JS.prop process_env "CHATWORK_TOKEN") = false →
  Forall (λ line, occurs JS.LF line = false) lines →
  occurs JS.LF v = false →
  JS.unquote (JS.trim v) = token → token ≠ "" →
  resolveToken options process_env
    (loadEnvText (JS.join newline (lines ++ ["CHATWORK_API_TOKEN=" +:+ v])))
    = Some (OStr token) ∧
  (∀ q q', JS.is_quote q = true → JS.is_quote q' = true →
     v = String q (token +:+ String q' "") → JS.unquote (JS.trim v) = token).
Proof.
  intros Htoken Henv1 Henv2 Hlines Hv Hvalue Hnonempty. split.
  - change ("CHATWORK_API_TOKEN=" +:+ v)
      with ("CHATWORK_API_TOKEN" +:+ "=" +:+ v).
    rewrite loadEnvText_snoc; [|done|by rewrite !occurs_app, Hv].
    unfold env_step. rewrite env_entry_define by reflexivity.
    rewrite assign_insert by discriminate.
    unfold resolveToken.
    rewrite (or_falsy_l (options !! "token")) by done.
    rewrite (or_falsy_l (JS.prop process_env "CHATWORK_API_TOKEN")) by done.
    rewrite (or_falsy_l (JS.prop process_env "CHATWORK_TOKEN")) by done.
    change (JS.trim "CHATWORK_API_TOKEN") with "CHATWORK_API_TOKEN".
    unfold JS.prop at 1. rewrite lookup_insert_eq, Hvalue.
    cbn [fmap option_fmap option_map].
    apply or_truthy_l. apply nonempty_spec in Hnonempty. exact Hnonempty.
  - intros q q' Hq Hq' ->. by apply unquote_quoted.
Qed.

Lemma resolveToken_env_file_witness :
  resolveToken ∅ ∅
    (loadEnvText (JS.join newline
       ["CHATWORK_API_TOKEN=old"; "CHATWORK_API_TOKEN= 'abc 123' "]))
    = Some (OStr "abc 123").
Proof.
  refine (proj1 (resolveToken_env_file ∅ ∅ ["CHATWORK_API_TOKEN=old"]
                   " 'abc 123' " "abc 123" _ _ _ _ _ _ _)).
  all: try reflexivity.
  - repeat constructor.
  - discriminate.
Defined.

Lemma slice_to_head idx c s :
  JS.slice_to (S idx) (String c s) = String c (JS.slice_to idx s).
Proof. reflexivity. Qed.

(** The key that a line defines. *)
Lemma env_entry_key line key value :
  env_entry line = Some (key, value) →
  occurs "=" key = false ∧ starts_with_ws key = false ∧
  ends_with_ws key = false ∧ JS.startsWith key "#" = false.
Proof.
  unfold env_entry.
  pose proof (trim_spec line) as (_ & Hhead & _).
  destruct (negb (nonempty (JS.trim line)) || JS.startsWith (JS.trim line) "#")
    eqn:Hskip; [done|].
  apply orb_false_iff in Hskip as [_ Hcomment].
  destruct (JS.indexOf "=" (JS.trim line)) as [idx|] eqn:Hidx; [|done].
  intros [= <- _].
  pose proof (trim_spec (JS.slice_to idx (JS.trim line))) as (_ & ? & ?).
  split_and!; [|done..|].
  - by apply occurs_trim, indexOf_slice_to.
  - destruct idx as [|idx]; [done|].
    destruct (JS.trim line) as [|c rest]; [done|].
    rewrite slice_to_head in *. cbn in Hhead.
    rewrite startsWith_char_trim by done.
    by rewrite startsWith_char_cons in *.
Qed.

(** X7.  Every key of the map that an env file gives is trimmed, holds no
    [=], does not begin with [#] and is not [__proto__]. *)
Theorem loadEnvText_keys (text key : string) :
  is_Some (loadEnvText text !! key) →
  occurs "=" key = false ∧ starts_with_ws key = false ∧
  ends_with_ws key = false ∧ JS.startsWith key "#" = false ∧
  key ≠ "__proto__".
Proof.
  unfold loadEnvText. generalize (JS.split_lines text). intros lines.
  assert (∀ envMap : gmap string string,
            (∀ k, is_Some (envMap !! k) →
               occurs "=" k = false ∧ starts_with_ws k = false ∧
               ends_with_ws k = false ∧ JS.startsWith k "#" = false ∧
               k ≠ "__proto__") →
            ∀ k, is_Some (foldl env_step envMap lines !! k) →
               occurs "=" k = false ∧ starts_with_ws k = false ∧
               ends_with_ws k = false ∧ JS.startsWith k "#" = false ∧
               k ≠ "__proto__") as Hinv.
  { induction lines as [|line lines IH]; intros envMap Hmap; [done|].
    cbn [foldl]. apply IH. intros k. unfold env_step.
    destruct (env_entry line) as [[key' value]|] eqn:Hline; [|apply Hmap].
    unfold JS.assign.
    destruct (String.eqb_spec key' "__proto__") as [|Hproto]; [apply Hmap|].
    destruct (decide (key' = k)) as [<-|Hne].
    - intros _. apply env_entry_key in Hline as (? & ? & ? & ?). done.
    - rewrite lookup_insert_ne by done. apply Hmap. }
  apply Hinv. intros k. rewrite lookup_empty. by intros [? ?].
Qed.

Lemma loadEnvText_keys_witness :
  occurs "=" "A B" = false ∧ starts_with_ws "A B" = false ∧
  ends_with_ws "A B" = false ∧ JS.startsWith "A B" "#" = false ∧
  "A B" ≠ "__proto__".
Proof.
  refine (loadEnvText_keys "  A B = 1 = 2" "A B" _).
  vm_compute. eauto.
Defined.

(** ** More on [runRead] *)

Lemma parseBool01_string s fallback :
  s ≠ "" →
  parseBool01 (Some (OStr s)) fallback =
    if String.eqb (JS.toLowerCase s) "1" || String.eqb (JS.toLowerCase s) "true"
    then 1
    else if String.eqb (JS.toLowerCase s) "0" ||
            String.eqb (JS.toLowerCase s) "false"
    then 0 else fallback.
Proof. by destruct s. Qed.

(** X8.  The request of [runRead] carries a [force] of 0 or 1; it is 0
    exactly when [--force] was given a text that reads [0] or [false] in any
    mix of upper and lower case, and 1 in every other case, the flag without
    a value and an unreadable text included. *)
Theorem runRead_force `{engine : Engine} (options : gmap string optval)
    (req : request) (k : payload → result (list CanonicalMessage)) :
  runRead options = Await req k →
  ∃ force,
    req = GetRoomMessages (options !! "room") force ∧
    (force = 0 ∨ force = 1) ∧
    (force = 0 ↔
       ∃ s, options !! "force" = Some (OStr s) ∧
            (JS.toLowerCase s = "0" ∨ JS.toLowerCase s = "false")).
Proof.
  intros (since & until & _ & _ & _ & -> & _)%runRead_await.
  exists (parseBool01 (options !! "force") 1). split; [done|].
  destruct (options !! "force") as [[|s]|] eqn:Hforce.
  - split; [by right|]. split; [done|]. by intros (s & [=] & _).
  - destruct (decide (s = "")) as [->|Hs].
    { split; [by right|]. split; [done|].
      intros (s & [= <-] & [[=]|[=]]). }
    rewrite parseBool01_string by done.
    destruct (String.eqb_spec (JS.toLowerCase s) "1") as [H1|H1];
      [|destruct (String.eqb_spec (JS.toLowerCase s) "true") as [Ht|Ht]];
      cbn [orb].
    + split; [by right|]. split; [done|].
      intros (s' & [= <-] & [H0|H0]); congruence.
    + split; [by right|]. split; [done|].
      intros (s' & [= <-] & [H0|H0]); congruence.
    + destruct (String.eqb_spec (JS.toLowerCase s) "0") as [H0|H0];
        [|destruct (String.eqb_spec (JS.toLowerCase s) "false") as [Hf|Hf]];
        cbn [orb].
      * split; [by left|]. split; [|done]. intros _. eauto.
      * split; [by left|]. split; [|done]. intros _. eauto.
      * split; [by right|]. split; [done|].
        intros (s' & [= <-] & [?|?]); congruence.
  - split; [by right|]. split; [done|]. by intros (s & [=] & _).
Qed.

Lemma runRead_force_witness :
  ∃ force : Z,
    GetRoomMessages (Some (OStr "42")) 0 =
      GetRoomMessages (Some (OStr "42")) force ∧
    (force = 0 ∨ force = 1).
Proof.
  destruct (runRead_requests (engine := strict_engine)
              {[ "room" := OStr "42"; "force" := OStr "FALSE" ]} None None)
    as [k Hrun]; [reflexivity..|].
  destruct (runRead_force (engine := strict_engine) _ _ _ Hrun)
    as (force & Hreq & Hforce & _).
  exists force. split; [exact Hreq|exact Hforce].
Defined.

(** *** The limit of a numeral *)

(** X9.  For a [--limit] of decimal digits that spell the number [n], the
    limit is [n] brought into the range from 1 to 100: 1 for 0, 100 for
    everything above.  A numeral so long that [Number] answers [Infinity]
    counts as no limit given: the limit is 30. *)
Theorem read_limit_numeral `{engine : Engine} (options : gmap string optval)
    (s : string) :
  options !! "limit" = Some (OStr s) →
  JS.digits_test s = true →
  (JS.digits_value s < 2 ^ 1023 →
     read_limit options = JS.of_Z (Z.max 1 (Z.min 100 (JS.digits_value s)))) ∧
  (2 ^ 1024 ≤ JS.digits_value s → read_limit options = JS.of_Z 30).
Proof.
  intros Hlimit Hdigits. unfold read_limit, parseIntSafe.
  rewrite Hlimit, Number_digits by done.
  pose proof (digits_value_nonneg s Hdigits) as Hn.
  destruct (round_to_double_range _ Hn) as [Hfinite Hinfinite]. split.
  - intros (v & -> & Hsmall & Hbig)%Hfinite. cbn [JS.isFinite JS.of_Z].
    change (Fin (inject_Z v)) with (JS.of_Z v).
    rewrite Math_min_of_Z, Math_max_of_Z. f_equal.
    destruct (Z.lt_ge_cases (JS.digits_value s) (2 ^ 53)) as [Hlt|Hge].
    + by rewrite (Hsmall Hlt).
    + specialize (Hbig Hge). lia.
  - intros ->%Hinfinite. by vm_compute.
Qed.

Lemma read_limit_numeral_witness :
  read_limit (engine := strict_engine) {[ "limit" := OStr "0" ]} = JS.of_Z 1 ∧
  read_limit (engine := strict_engine) {[ "limit" := OStr "00250" ]}
    = JS.of_Z 100.
Proof.
  split.
  - refine (proj1 (read_limit_numeral (engine := strict_engine)
                     {[ "limit" := OStr "0" ]} "0" _ _) _);
      [reflexivity..|]. by vm_compute.
  - refine (proj1 (read_limit_numeral (engine := strict_engine)
                     {[ "limit" := OStr "00250" ]} "00250" _ _) _);
      [reflexivity..|]. by vm_compute.
Defined.

(** X10.  [runRead] ends without a request only by throwing, and it throws
    for the first of these that applies: no room, a [--since] that cannot be
    read, a [--until] that cannot be read.  With a room and both bounds read
    it makes its request. *)
Theorem runRead_validation `{engine : Engine} (options : gmap string optval) :
  (JS.truthy (options !! "room") = false →
     runRead options =
       Return (Throw (Error "read requires --room <roomId>."))) ∧
  (∀ e, JS.truthy (options !! "room") = true →
     parseUnixTime (options !! "since") "--since" = Throw e →
     runRead options = Return (Throw e)) ∧
  (∀ since e, JS.truthy (options !! "room") = true →
     parseUnixTime (options !! "since") "--since" = Ok since →
     parseUnixTime (options !! "until") "--until" = Throw e →
     runRead options = Return (Throw e)) ∧
  (∀ r, runRead options = Return r →
     (∃ e, r = Throw e) ∧
     (JS.truthy (options !! "room") = false ∨
      (∃ e, parseUnixTime (options !! "since") "--since" = Throw e) ∨
      (∃ e, parseUnixTime (options !! "until") "--until" = Throw e))).
Proof.
  unfold runRead. split_and!.
  - by intros ->.
  - by intros e -> ->.
  - by intros since e -> -> ->.
  - intros r. destruct (JS.truthy (options !! "room")); cbn [negb];
      [|intros [= <-]; eauto].
    destruct (parseUnixTime (options !! "since") "--since") as [since|e];
      cbn [attempt]; [|intros [= <-]; eauto 6].
    destruct (parseUnixTime (options !! "until") "--until") as [until|e];
      cbn [attempt]; [done|intros [= <-]; eauto 6].
Qed.

Lemma runRead_validation_witness :
  runRead (engine := strict_engine)
    {[ "room" := OStr "42"; "since" := OStr "soon"; "until" := OStr "later" ]}
  = Return (Throw (Error "Invalid --since: soon")).
Proof.
  refine (proj1 (proj2 (runRead_validation (engine := strict_engine) _))
            _ _ _); reflexivity.
Defined.

(** *** The run *)

(** X18.  Once the request of [runRead] is answered, the run returns a
    sequence exactly when the send time of every record it keeps is within
    the range of dates.  Records that the filters or the limit drop have no
    part in this; one kept record beyond the range fails the whole run. *)
Theorem runRead_date_range `{engine : Engine} (client : Client)
    (options : gmap string optval) (since until : option number)
    (raw : payload) :
  JS.truthy (options !! "room") = true →
  parseUnixTime (options !! "since") "--since" = Ok since →
  parseUnixTime (options !! "until") "--until" = Ok until →
  client (GetRoomMessages (options !! "room")
            (parseBool01 (options !! "force") 1)) = Ok raw →
  (∃ out, run client (runRead options) = Ok out) ↔
  Forall (λ msg, - JS.maxTime ≤ Raw.send_time msg * 1000 ≤ JS.maxTime)
    (read_kept options since until raw).
Proof.
  intros Hroom Hsince Huntil Hclient. split.
  - intros [out (since' & until' & raw' & _ & Hsince' & Huntil' & Hclient' &
                 Hout)%run_runRead].
    assert (since' = since) as -> by congruence.
    assert (until' = until) as -> by congruence.
    assert (raw' = raw) as -> by congruence.
    induction Hout as [|msg m kept out' Hmsg _ IH]; constructor; [|done].
    apply (normalizeReadMessage_returns (options !! "room") msg
             (JS.truthy (options !! "strip-tags"))). eauto.
  - intros Hrange.
    destruct (Forall2_total
                (λ msg m, normalizeReadMessage (options !! "room") msg
                            (JS.truthy (options !! "strip-tags")) = Ok m)
                (read_kept options since until raw)) as [out Hout].
    { eapply Forall_impl; [exact Hrange|]. intros msg Hmsg.
      by apply normalizeReadMessage_returns. }
    exists out. apply run_runRead. exists since, until, raw. eauto 6.
Qed.

Lemma runRead_date_range_witness :
  ∃ out,
    run (λ _, Ok (PArray [example_raw]))
      (runRead (engine := strict_engine) {[ "room" := OStr "42" ]}) = Ok out.
Proof.
  refine (proj2 (runRead_date_range (engine := strict_engine)
                   (λ _, Ok (PArray [example_raw]))
                   {[ "room" := OStr "42" ]} None None (PArray [example_raw])
                   _ _ _ _) _); [reflexivity..|].
  assert (read_kept (engine := strict_engine) {[ "room" := OStr "42" ]}
            None None (PArray [example_raw]) = [example_raw]) as ->
    by (vm_compute; reflexivity).
  constructor; [|constructor].
  split; vm_compute; intros [=].
Defined.

(** X19.  The records that [runRead] keeps with one send time stand in the
    order in which the payload has them, and they are the last of the
    matching records with that send time. *)
Theorem read_kept_stable `{engine : Engine} (options : gmap string optval)
    (since until : option number) (raw : payload) (t : Z) :
  List.filter (λ m, Raw.send_time m =? t) (read_kept options since until raw)
    `suffix_of`
  List.filter (λ m, Raw.send_time m =? t)
    (contains_stage (read_contains options)
       (window_stage since until (elements raw))).
Proof.
  destruct (read_kept_tail options since until raw)
    as (limit & older & _ & _ & _ & Hsorted & _).
  rewrite <- (sort_stage_stable t
                (contains_stage _ (window_stage since until (elements raw)))).
  rewrite Hsorted, List.filter_app.
  by eexists.
Qed.

(** ** More on [stripCommonChatworkTags] *)

Lemma re_to_bracket c rest : c ≠ "["%char → re_to (String c rest) = None.
Proof. intros Hc. unfold re_to, JS.seq. by rewrite lit_bracket. Qed.

Lemma re_rp_bracket c rest : c ≠ "["%char → re_rp (String c rest) = None.
Proof. intros Hc. unfold re_rp, JS.seq. by rewrite lit_bracket. Qed.

Lemma re_block_bracket c rest : c ≠ "["%char → re_block (String c rest) = None.
Proof.
  intros Hc. unfold re_block. cbn [fmap list_fmap JS.alt].
  by rewrite !lit_bracket.
Qed.

(** A stretch without an opening bracket is copied. *)
Lemma remove_prefix (m : JS.matcher) a s :
  (∀ c rest, c ≠ "["%char → m (String c rest) = None) →
  occurs "[" a = false →
  JS.remove_all m (a +:+ s) = a +:+ JS.remove_all m s.
Proof.
  intros Hm. unfold JS.remove_all.
  induction a as [|c a IH]; [by rewrite !string_app_nil|].
  cbn [occurs]. intros [Hc Ha]%orb_false_iff.
  rewrite !string_app_cons. cbn [JS.remove_from].
  rewrite Hm by (intros ->; by rewrite Ascii.eqb_refl in Hc).
  by rewrite IH.
Qed.

Lemma remove_skip (m : JS.matcher) t s :
  JS.remove_from m (String.length t) (t +:+ s) = JS.remove_from m 0 s.
Proof.
  induction t as [|c t IH]; [by rewrite string_app_nil; destruct s|].
  rewrite string_app_cons. cbn [String.length JS.remove_from]. exact IH.
Qed.

Lemma string_length_app s t :
  String.length (s +:+ t) = (String.length s + String.length t)%nat.
Proof.
  induction s as [|c s IH]; [by rewrite string_app_nil|].
  rewrite string_app_cons. cbn [String.length]. by rewrite IH.
Qed.

(** A match at the start is dropped, and the scan goes on behind it. *)
Lemma remove_match (m : JS.matcher) c t s :
  m (String c t +:+ s) = Some s →
  JS.remove_all m (String c t +:+ s) = JS.remove_all m s.
Proof.
  unfold JS.remove_all. rewrite string_app_cons. intros Hm.
  cbn [JS.remove_from]. rewrite Hm, string_length_app.
  replace (String.length t + String.length s - String.length s)%nat
    with (String.length t) by lia.
  apply remove_skip.
Qed.

(** A bracket that opens no match is copied with what follows it up to the
    next bracket. *)
Lemma remove_keep (m : JS.matcher) t s :
  (∀ c rest, c ≠ "["%char → m (String c rest) = None) →
  occurs "[" t = false →
  m (String "[" t +:+ s) = None →
  JS.remove_all m (String "[" t +:+ s) =
    String "[" t +:+ JS.remove_all m s.
Proof.
  intros Hm Ht Hfail. rewrite !string_app_cons in *.
  unfold JS.remove_all. cbn [JS.remove_from]. rewrite Hfail. f_equal.
  by apply remove_prefix.
Qed.

Lemma lit_app p s : JS.lit p (p +:+ s) = Some s.
Proof.
  induction p as [|c p IH]; [by rewrite string_app_nil; destruct s|].
  rewrite string_app_cons. cbn [JS.lit]. by rewrite Ascii.eqb_refl.
Qed.

Lemma skip_digits_app ds c s :
  JS.all_digits ds = true → JS.is_digit c = false →
  JS.skip_digits (ds +:+ String c s) = String c s.
Proof.
  intros Hds Hc. induction ds as [|d ds IH].
  - rewrite string_app_nil. cbn [JS.skip_digits]. by rewrite Hc.
  - cbn [JS.all_digits] in Hds. apply andb_true_iff in Hds as [Hd Hds].
    rewrite string_app_cons. cbn [JS.skip_digits]. rewrite Hd. by apply IH.
Qed.

Lemma digits1_app ds c s :
  JS.digits_test ds = true → JS.is_digit c = false →
  JS.digits1 (ds +:+ String c s) = Some (String c s).
Proof.
  intros [Hne Hds]%andb_true_iff Hc. destruct ds as [|d ds]; [done|].
  cbn [JS.all_digits] in Hds. apply andb_true_iff in Hds as [Hd Hds].
  rewrite string_app_cons. cbn [JS.digits1]. rewrite Hd.
  by rewrite skip_digits_app.
Qed.

Lemma digits_no_bracket ds : JS.all_digits ds = true → occurs "[" ds = false.
Proof.
  induction ds as [|d ds IH]; [done|]. cbn [JS.all_digits occurs].
  intros [Hd Hds]%andb_true_iff. rewrite IH by done.
  destruct (Ascii.eqb_spec d "[") as [->|]; [|done].
  by vm_compute in Hd.
Qed.

Lemma re_to_tag id s :
  JS.digits_test id = true → re_to (to_tag id +:+ s) = Some s.
Proof.
  intros Hid. unfold re_to, to_tag, JS.seq.
  rewrite !string_app_assoc, lit_app. cbn [mbind option_bind].
  change ("]" +:+ s) with (String "]" s).
  rewrite digits1_app by done. cbn [mbind option_bind].
  apply (lit_app "]").
Qed.

Lemma re_rp_tag aid room msg s :
  JS.digits_test aid = true → JS.digits_test room = true →
  JS.digits_test msg = true →
  re_rp (rp_tag aid room msg +:+ s) = Some s.
Proof.
  intros Haid Hroom Hmsg. unfold re_rp, rp_tag, JS.seq.
  rewrite !string_app_assoc, lit_app. cbn [mbind option_bind].
  change (" to=" +:+ ?x) with (String " " ("to=" +:+ x)).
  rewrite digits1_app by done. cbn [mbind option_bind].
  change (String " " ("to=" +:+ ?x)) with (" to=" +:+ x).
  rewrite lit_app. cbn [mbind option_bind].
  change ("-" +:+ ?x) with (String "-" x).
  rewrite digits1_app by done. cbn [mbind option_bind].
  change (String "-" ?x) with ("-" +:+ x).
  rewrite lit_app. cbn [mbind option_bind].
  change ("]" +:+ s) with (String "]" s).
  rewrite digits1_app by done. cbn [mbind option_bind].
  apply (lit_app "]").
Qed.

Lemma rp_tag_shape aid room msg :
  JS.digits_test aid = true → JS.digits_test room = true →
  JS.digits_test msg = true →
  ∃ t, rp_tag aid room msg = String "[" (String "r" t) ∧
       occurs "[" (String "r" t) = false.
Proof.
  intros [_ Haid]%andb_true_iff [_ Hroom]%andb_true_iff
    [_ Hmsg]%andb_true_iff.
  exists ("p aid=" +:+ aid +:+ " to=" +:+ room +:+ "-" +:+ msg +:+ "]").
  split; [done|].
  change (String "r" ("p aid=" +:+ ?x)) with ("rp aid=" +:+ x).
  rewrite !occurs_app, (digits_no_bracket aid), (digits_no_bracket room),
    (digits_no_bracket msg) by done.
  reflexivity.
Qed.

Lemma block_tag_shape tag :
  tag ∈ block_tags →
  ∃ c t, tag = String "[" (String c t) ∧ occurs "[" (String c t) = false ∧
         c ≠ "T"%char ∧ c ≠ "r"%char.
Proof.
  unfold block_tags. rewrite !elem_of_cons, elem_of_nil.
  intros [->|[->|[->|[->|[->|[->|[->|[->|[]]]]]]]]];
    eexists _, _; (split; [reflexivity|]); split_and!; done.
Qed.

Lemma re_block_tag tag s :
  tag ∈ block_tags → re_block (tag +:+ s) = Some s.
Proof.
  unfold block_tags, re_block. rewrite !elem_of_cons, elem_of_nil.
  cbn [fmap list_fmap JS.alt].
  intros [->|[->|[->|[->|[->|[->|[->|[->|[]]]]]]]]];
    repeat first
      [ rewrite lit_app; reflexivity
      | match goal with
        | |- context [JS.lit ?p (?t +:+ s)] =>
            replace (JS.lit p (t +:+ s)) with (@None string)
              by (by rewrite !string_app_cons)
        end ].
Qed.

Lemma re_to_second c rest :
  c ≠ "T"%char → re_to (String "[" (String c rest)) = None.
Proof.
  intros Hc. unfold re_to, JS.seq. cbn [JS.lit]. rewrite Ascii.eqb_refl.
  destruct (Ascii.eqb_spec "T" c); [congruence|done].
Qed.

Lemma re_rp_second c rest :
  c ≠ "r"%char → re_rp (String "[" (String c rest)) = None.
Proof.
  intros Hc. unfold re_rp, JS.seq. cbn [JS.lit]. rewrite Ascii.eqb_refl.
  destruct (Ascii.eqb_spec "r" c); [congruence|done].
Qed.

(** One pass over a text whose first bracket opens a match, and over one whose
    first bracket opens none. *)
Lemma pass_drop (m : JS.matcher) a c t s :
  (∀ c rest, c ≠ "["%char → m (String c rest) = None) →
  occurs "[" a = false →
  m (String c t +:+ s) = Some s →
  JS.remove_all m (a +:+ String c t +:+ s) = JS.remove_all m (a +:+ s).
Proof.
  intros Hm Ha Hmatch. rewrite !(remove_prefix m a) by done.
  f_equal. by apply remove_match.
Qed.

Lemma pass_keep (m : JS.matcher) a t s :
  (∀ c rest, c ≠ "["%char → m (String c rest) = None) →
  occurs "[" a = false → occurs "[" t = false →
  m (String "[" t +:+ s) = None →
  JS.remove_all m (a +:+ String "[" t +:+ s) =
    a +:+ String "[" t +:+ JS.remove_all m s.
Proof.
  intros Hm Ha Ht Hfail. rewrite (remove_prefix m a) by done.
  f_equal. by apply remove_keep.
Qed.

(** X11.  The first tag of a text is dropped: stripping a text in which an
    addressee tag, a reply tag or a block tag comes before any other opening
    bracket gives what stripping the text without that tag gives. *)
Theorem stripCommonChatworkTags_first_tag (a s : string) :
  occurs "[" a = false →
  (∀ id, JS.digits_test id = true →
     stripCommonChatworkTags (a +:+ to_tag id +:+ s) =
       stripCommonChatworkTags (a +:+ s)) ∧
  (∀ aid room msg,
     JS.digits_test aid = true → JS.digits_test room = true →
     JS.digits_test msg = true →
     stripCommonChatworkTags (a +:+ rp_tag aid room msg +:+ s) =
       stripCommonChatworkTags (a +:+ s)) ∧
  (∀ tag, tag ∈ block_tags →
     stripCommonChatworkTags (a +:+ tag +:+ s) =
       stripCommonChatworkTags (a +:+ s)).
Proof.
  intros Ha. unfold stripCommonChatworkTags. split_and!.
  - intros id Hid. rewrite !str_or_empty. do 3 f_equal.
    apply (pass_drop re_to a "[" ("To:" +:+ id +:+ "]"));
      [apply re_to_bracket|done|].
    by apply re_to_tag.
  - intros aid room msg Haid Hroom Hmsg. rewrite !str_or_empty. do 2 f_equal.
    destruct (rp_tag_shape aid room msg) as (t & Htag & Ht); [done..|].
    rewrite (remove_prefix re_to a s) by auto using re_to_bracket.
    rewrite Htag, (pass_keep re_to), <- Htag; [|apply re_to_bracket|done..|].
    + apply (pass_drop re_rp a "["
               ("rp aid=" +:+ aid +:+ " to=" +:+ room +:+ "-" +:+ msg +:+ "]"));
        [apply re_rp_bracket|done|].
      by apply re_rp_tag.
    + rewrite !string_app_cons. by apply re_to_second.
  - intros tag Htag. rewrite !str_or_empty. f_equal.
    destruct (block_tag_shape tag Htag) as (c & t & Hshape & Ht & HT & Hr).
    rewrite (remove_prefix re_to a s) by auto using re_to_bracket.
    rewrite (remove_prefix re_rp a) by auto using re_rp_bracket.
    rewrite Hshape.
    rewrite (pass_keep re_to);
      [|apply re_to_bracket|done..|rewrite !string_app_cons;
                                    by apply re_to_second].
    rewrite (pass_keep re_rp);
      [|apply re_rp_bracket|done..|rewrite !string_app_cons;
                                    by apply re_rp_second].
    apply pass_drop; [apply re_block_bracket|done|].
    rewrite <- Hshape. by apply re_block_tag.
Qed.

Lemma stripCommonChatworkTags_first_tag_witness :
  occurs "[" "Hi " = false ∧
  stripCommonChatworkTags ("Hi " +:+ to_tag "7" +:+ " [To:8] all") =
    stripCommonChatworkTags ("Hi " +:+ " [To:8] all").
Proof.
  split; [reflexivity|].
  apply (proj1 (stripCommonChatworkTags_first_tag "Hi " " [To:8] all"
                  eq_refl) "7").
  reflexivity.
Defined.

(** ** More on [runWrite] *)

Lemma all_ws_app a b : all_ws (a +:+ b) = all_ws a && all_ws b.
Proof.
  induction a as [|c a IH]; [done|].
  rewrite string_app_cons. cbn [all_ws]. by rewrite IH, andb_assoc.
Qed.

(** White space is what trims to nothing. *)
Lemma trim_empty s : JS.trim s = "" ↔ all_ws s = true.
Proof.
  split.
  - intros Hs. destruct (trim_spec s) as [(l & r & Heq & Hl & Hr) _].
    rewrite Hs, string_app_nil in Heq.
    by rewrite Heq, all_ws_app, Hl, Hr.
  - intros Hs. unfold JS.trim. by rewrite all_ws_trim_start.
Qed.

Lemma truthy_String_ v : JS.truthy v = true → JS.String_ v ≠ "".
Proof. destruct v as [[|s]|]; [done| |done]. by destruct s. Qed.

(** Options other than [--dry-run] say the same with and without it. *)
Lemma resolveWriteMessage_delete options input :
  resolveWriteMessage (delete "dry-run" options) input =
    resolveWriteMessage options input.
Proof.
  unfold resolveWriteMessage. by rewrite !lookup_delete_ne by done.
Qed.

Lemma buildChatworkBody_delete roomId messageBody options :
  buildChatworkBody roomId messageBody (delete "dry-run" options) =
    buildChatworkBody roomId messageBody options.
Proof.
  unfold buildChatworkBody. by rewrite !lookup_delete_ne by done.
Qed.

Lemma runWrite_dry_run_returns options input :
  JS.truthy (options !! "dry-run") = true →
  ∃ r, runWrite options input = Return r.
Proof.
  intros Hdry. unfold runWrite. rewrite Hdry.
  destruct (JS.truthy (options !! "room")); cbn [negb]; [|eauto].
  destruct (nonempty (resolveWriteMessage options input)); cbn [negb];
    [|eauto].
  destruct (buildChatworkBody _ _ options); cbn [attempt]; eauto.
Qed.

(** X12.  With [--dry-run], [runWrite] makes no request.  What it shows is
    the body that the same call without [--dry-run] posts to the same room,
    and it fails exactly where that call fails before its request. *)
Theorem runWrite_dry_run (options : gmap string optval) (input : Input) :
  JS.truthy (options !! "dry-run") = true →
  (∃ r, runWrite options input = Return r) ∧
  (∀ room body,
     runWrite options input = Return (Ok (Preview room body)) ↔
     room = JS.String_ (options !! "room") ∧
     runWrite (delete "dry-run" options) input =
       Await (PostRoomMessage (options !! "room") body)
         (λ response, Ok (Sent response))) ∧
  (∀ e,
     runWrite options input = Return (Throw e) ↔
     runWrite (delete "dry-run" options) input = Return (Throw e)).
Proof.
  intros Hdry. unfold runWrite.
  rewrite resolveWriteMessage_delete, buildChatworkBody_delete.
  rewrite lookup_delete_eq, !lookup_delete_ne, Hdry by done.
  destruct (JS.truthy (options !! "room")); cbn [negb].
  2: { split_and!; [eauto| |done]. intros room body.
       split; [done|]. by intros [_ ?]. }
  destruct (nonempty (resolveWriteMessage options input)); cbn [negb].
  2: { split_and!; [eauto| |done]. intros room body.
       split; [done|]. by intros [_ ?]. }
  destruct (buildChatworkBody _ _ options) as [body'|e']; cbn [attempt JS.truthy].
  - split_and!; [eauto| |done]. intros room body. split.
    + by intros [= <- <-].
    + by intros [-> [= ->]].
  - split_and!; [eauto| |done]. intros room body.
    split; [done|]. by intros [_ ?].
Qed.

Lemma runWrite_dry_run_witness :
  runWrite (delete "dry-run"
              {[ "room" := OStr "42"; "message" := OStr "hello";
                 "dry-run" := OTrue ]})
    {| file_text := ""; stdin_text := None |} =
  Await (PostRoomMessage (Some (OStr "42")) "hello")
    (λ response, Ok (Sent response)).
Proof.
  refine (proj2 (proj1 (proj1 (proj2 (runWrite_dry_run
            {[ "room" := OStr "42"; "message" := OStr "hello";
               "dry-run" := OTrue ]}
            {| file_text := ""; stdin_text := None |} _))
            "42" "hello") _)); reflexivity.
Defined.

(** X13.  With a room given, [runWrite] reports that the message text is
    missing exactly when [--message] holds no text and what the file, or
    without a file standard input, supplies is white space or nothing.  A
    [--message] of white space counts as text. *)
Theorem runWrite_missing_text (options : gmap string optval) (input : Input) :
  JS.truthy (options !! "room") = true →
  runWrite options input =
    Return (Throw (Error
      "write requires message text via --message, --file, or stdin.")) ↔
  JS.truthy (options !! "message") = false ∧
  all_ws (if JS.truthy (options !! "file") then file_text input
          else default "" (stdin_text input)) = true.
Proof.
  intros Hroom. unfold runWrite. rewrite Hroom. cbn [negb].
  assert (resolveWriteMessage options input = "" ↔
          JS.truthy (options !! "message") = false ∧
          all_ws (if JS.truthy (options !! "file") then file_text input
                  else default "" (stdin_text input)) = true) as <-.
  { unfold resolveWriteMessage, readStdinMessage.
    destruct (JS.truthy (options !! "message")) eqn:Hmessage.
    - split; [|by intros [[=] _]].
      intros Hempty. by apply truthy_String_ in Hmessage.
    - destruct (JS.truthy (options !! "file")).
      + rewrite trim_empty. split; [done|by intros [_ ?]].
      + destruct (stdin_text input) as [text|]; cbn [default].
        * rewrite trim_empty. split; [done|by intros [_ ?]].
        * done. }
  destruct (nonempty (resolveWriteMessage options input)) eqn:Hmsg;
    cbn [negb].
  - apply nonempty_spec in Hmsg. split; [|done].
    unfold buildChatworkBody.
    repeat case_match; cbn [attempt]; intros [=].
  - split; [intros _|done].
    destruct (resolveWriteMessage options input); [done|discriminate].
Qed.

Lemma runWrite_missing_text_witness :
  runWrite {[ "room" := OStr "42"; "file" := OStr "note.txt" ]}
    {| file_text := " " +:+ newline; stdin_text := Some "unused" |} =
  Return (Throw (Error
    "write requires message text via --message, --file, or stdin.")).
Proof.
  refine (proj2 (runWrite_missing_text
            {[ "room" := OStr "42"; "file" := OStr "note.txt" ]}
            {| file_text := " " +:+ newline; stdin_text := Some "unused" |}
            _) _); [reflexivity|split; reflexivity].
Defined.

(** ** [main] *)

Lemma argv_includes_spec argv x : argv_includes argv x = true ↔ x ∈ argv.
Proof.
  unfold argv_includes. rewrite existsb_exists, list_elem_of_In.
  split.
  - by intros (y & Hy & ->%String.eqb_eq).
  - intros Hx. exists x. by rewrite String.eqb_refl.
Qed.

(** X15.  [main] shows the help text and does nothing else exactly when
    there is no argument, when [--help] or [-h] is among the arguments,
    wherever it stands, or when the command is [help]. *)
Theorem main_help (argv : list string) (process_env : gmap string string)
    (readFile : jsval → result string) :
  main argv process_env readFile = Ok ShowHelp ↔
  argv = [] ∨ "--help" ∈ argv ∨ "-h" ∈ argv ∨ head argv = Some "help".
Proof.
  destruct argv as [|command args]; [by split; [left|]|].
  unfold main. rewrite <- !argv_includes_spec.
  destruct (argv_includes (command :: args) "--help"); cbn [orb];
    [by split; [right; left|]|].
  destruct (argv_includes (command :: args) "-h"); cbn [orb];
    [by split; [right; right; left|]|].
  destruct (String.eqb_spec command "help") as [->|Hcommand].
  { split; [|done]. intros _. by do 3 right. }
  split.
  - destruct (maybeLoadEnvFile _ readFile); cbn [mbind result_bind]; [|done].
    repeat case_match; done.
  - intros [[=]|[[=]|[[=]|[=]]]]. congruence.
Qed.

(** X16.  The faults of a command line that asks for no help are found in
    this order, whatever the command: an env file that cannot be read, even
    when [--token] is given; then a missing token, unless the command is
    [write] with [--dry-run]; and only then a command that is not known. *)
Theorem main_errors (command : string) (args : list string)
    (process_env : gmap string string) (readFile : jsval → result string) :
  argv_includes (command :: args) "--help" = false →
  argv_includes (command :: args) "-h" = false →
  command ≠ "help" →
  (∀ err,
     maybeLoadEnvFile ((parseArgs args).1 !! "env-file") readFile = Throw err →
     main (command :: args) process_env readFile =
       Throw (Error ("Failed to read --env-file: " +:+ exn_message err))) ∧
  (∀ envFromFile,
     maybeLoadEnvFile ((parseArgs args).1 !! "env-file") readFile
       = Ok envFromFile →
     JS.truthy (resolveToken (parseArgs args).1 process_env envFromFile)
       = false →
     (command = "write" →
      JS.truthy ((parseArgs args).1 !! "dry-run") = false) →
     main (command :: args) process_env readFile =
       Throw (Error
         "Missing API token. Set CHATWORK_API_TOKEN or use --token.")) ∧
  (∀ envFromFile,
     maybeLoadEnvFile ((parseArgs args).1 !! "env-file") readFile
       = Ok envFromFile →
     JS.truthy (resolveToken (parseArgs args).1 process_env envFromFile)
       = true →
     command ∉ ["me"; "rooms"; "read"; "write"] →
     main (command :: args) process_env readFile =
       Throw (Error ("Unknown command: " +:+ command))).
Proof.
  intros Hhelp Hh Hcommand. unfold main. rewrite Hhelp, Hh. cbn [orb].
  destruct (String.eqb_spec command "help") as [|_]; [done|].
  split_and!.
  - by intros err ->.
  - intros envFromFile -> Htoken Hdry. cbn [mbind result_bind].
    rewrite Htoken. cbn [negb andb].
    destruct (String.eqb_spec command "write") as [Hwrite|_];
      cbn [andb negb]; [|done].
    by rewrite (Hdry Hwrite).
  - intros envFromFile -> Htoken Hunknown. cbn [mbind result_bind].
    rewrite Htoken.
    cbn [negb andb].
    rewrite !not_elem_of_cons in Hunknown.
    destruct Hunknown as (Hme & Hrooms & Hread & Hwrite & _).
    destruct (String.eqb_spec command "me"); [done|].
    destruct (String.eqb_spec command "rooms"); [done|].
    destruct (String.eqb_spec command "read"); [done|].
    destruct (String.eqb_spec command "write"); [done|]. done.
Qed.

Lemma main_errors_witness :
  main ["frobnicate"; "--token=t"; "--env-file=missing.env"] ∅
    (λ _, Throw (Error "ENOENT")) =
  Throw (Error ("Failed to read --env-file: " +:+ "ENOENT")).
Proof.
  refine (proj1 (main_errors "frobnicate"
                   ["--token=t"; "--env-file=missing.env"] ∅
                   (λ _, Throw (Error "ENOENT")) _ _ _) (Error "ENOENT") _);
    [reflexivity|reflexivity|discriminate|reflexivity].
Defined.

(** X17.  A handler is given no client only when it is the handler of
    [write] and [--dry-run] is set, and [runWrite] then makes no request: the
    missing client is never used.  Every other handler gets the token that
    [resolveToken] found, which is not empty. *)
Theorem main_client (argv : list string) (process_env : gmap string string)
    (readFile : jsval → result string) (cmd : command) (client : jsval)
    (options : gmap string optval) :
  main argv process_env readFile = Ok (Handler cmd client options) →
  (∃ name args, argv = name :: args ∧ options = (parseArgs args).1) ∧
  (client = None →
     cmd = Write ∧ JS.truthy (options !! "dry-run") = true ∧
     ∀ input, ∃ r, runWrite options input = Return r) ∧
  (client ≠ None →
     JS.truthy client = true ∧
     ∃ envFromFile,
       maybeLoadEnvFile (options !! "env-file") readFile = Ok envFromFile ∧
       client = resolveToken options process_env envFromFile).
Proof.
  destruct argv as [|name args]; [done|]. unfold main.
  destruct (_ || _); [done|].
  destruct (String.eqb name "help"); [done|].
  set (opts := (parseArgs args).1).
  destruct (maybeLoadEnvFile (opts !! "env-file") readFile)
    as [envFromFile|err] eqn:Henv; cbn [mbind result_bind]; [|done].
  set (token := resolveToken opts process_env envFromFile).
  destruct (JS.truthy token) eqn:Htoken; cbn [negb andb].
  - intros Hmain.
    assert (client = token ∧ options = opts) as [-> ->].
    { repeat case_match; naive_solver. }
    split_and!; [by eauto| |by eauto].
    intros Hnone. by rewrite Hnone in Htoken.
  - destruct (String.eqb_spec name "write") as [->|_]; cbn [andb negb];
      [|done].
    destruct (JS.truthy (opts !! "dry-run")) eqn:Hdry; cbn [negb]; [|done].
    cbn. intros [= <- <- <-].
    split_and!; [by eauto| |done].
    intros _. split_and!; [done..|].
    intros input. by apply runWrite_dry_run_returns.
Qed.

Lemma main_client_witness :
  Write = Write ∧
  ∀ input, ∃ r,
    runWrite (parseArgs ["--room=42"; "--dry-run"]).1 input = Return r.
Proof.
  assert (main ["write"; "--room=42"; "--dry-run"] ∅
            (λ _, Throw (Error "ENOENT")) =
          Ok (Handler Write None (parseArgs ["--room=42"; "--dry-run"]).1))
    as Hmain by (vm_compute; reflexivity).
  destruct (main_client _ _ _ _ _ _ Hmain) as (_ & Hnone & _).
  destruct (Hnone eq_refl) as (Hcmd & _ & Hrun).
  split; [exact Hcmd|exact Hrun].
Defined.
